(** * labwatch: the aggregation-and-fanout engine of [labwatch.go]

    A shallow embedding of the package-level state of [labwatch.go]
    ([currentStatus], [statusClients], [eventClients], [lock]), of the
    four registry functions, of the merge loop started by [startWatchers]
    and of the two websocket handlers installed by [main].

    Every function is a computation in a small state-and-trace monad: it
    transforms the program state and emits the externally visible actions
    it performs, in program order (mutex operations, accesses to the two
    registry maps, log records, channel sends, connection writes, sleeps). *)

From stdpp Require Import gmap strings list fin_maps.
From Stdlib Require Import ZArith Lia.

(** A channel value ([make(chan T)]) is modelled by its identity. *)
Definition Chan := nat.

(** Serialized payloads ([[]byte] produced by [json.Marshal]). *)
Definition Bytes := string.

(** The two package-level registries. *)
Inductive Registry := StatusClients | EventClients.

#[export] Instance Registry_eq_dec : EqDecision Registry.
Proof. solve_decision. Defined.

(** Result of a two-valued receive [v, ok := <-ch]: [Some v] when a value
    was received ([ok = true]), [None] when the channel is closed. *)
Definition Recv (A : Type) := option A.

Section Labwatch.

(** Types declared in the watcher packages ([talos.NodeStatus],
    [loki.LogStats], [loki.LogEvent]) are parameters, together with the
    zero value of [loki.LogStats]. *)
Context {NodeStatus LogStats LogEvent : Type}.
Context (zeroLogStats : LogStats).

(** [map[string]talos.NodeStatus]: a Go map value is a reference that may
    be nil, hence the [option]. *)
Definition NodeHealth := option (gmap string NodeStatus).

(** [type LabStatus struct { Talos ...; Logs ... }] *)
Record LabStatus := mkLabStatus {
  Talos : NodeHealth;
  Logs : LogStats
}.

(** [LabStatus{}] *)
Definition zeroLabStatus : LabStatus := mkLabStatus None zeroLogStats.

(** Program state: the local variable [status] of [startWatchers]
    (captured by the loop goroutine) and the package-level variables. *)
Record State := mkState {
  status : LabStatus;
  currentStatus : LabStatus;
  statusClients : gmap string Chan;
  eventClients : gmap string Chan
}.

(** State at the time the loop goroutine is started. *)
Definition initState : State :=
  mkState zeroLabStatus zeroLabStatus ∅ ∅.

(** Externally visible actions. *)
Inductive Event :=
| MutexLock                                   (* lock.Lock() *)
| MutexUnlock                                 (* lock.Unlock() *)
| MapStore (r : Registry) (id : string)       (* m[id] = ch *)
| MapDelete (r : Registry) (id : string)      (* delete(m, id) *)
| MapLen (r : Registry)                       (* len(m) *)
| MapRange (r : Registry)                     (* for _, ch := range m *)
| LogError (msg : string)
| LogInfo (msg : string)
| LogDebug (msg : string) (clients : nat)
| SendStatus (ch : Chan) (s : LabStatus)      (* ch <- status *)
| SendEvent (ch : Chan) (e : LogEvent)        (* ch <- e *)
| Sleep (ms : Z)                              (* time.Sleep *)
| HttpWrite (data : Bytes)                    (* w.Write(b) *)
| ConnWrite (data : Bytes) (ok : bool).       (* conn.WriteMessage(TextMessage, data) *)

(** ** The monad *)

Definition M (A : Type) : Type := State -> A * State * list Event.

#[export] Instance M_ret : MRet M := fun A x st => (x, st, []).

#[export] Instance M_bind : MBind M := fun A B k m st =>
  let '(x, st1, t1) := m st in
  let '(y, st2, t2) := k x st1 in
  (y, st2, t1 ++ t2).

Definition emit (e : Event) : M unit := fun st => (tt, st, [e]).
Definition get : M State := fun st => (st, st, []).
Definition modify (f : State -> State) : M unit := fun st => (tt, f st, []).

Definition result {A} (r : A * State * list Event) : A := r.1.1.
Definition final {A} (r : A * State * list Event) : State := r.1.2.
Definition trace {A} (r : A * State * list Event) : list Event := r.2.

(** Field updates. *)
Definition set_status (s : LabStatus) (st : State) : State :=
  mkState s (currentStatus st) (statusClients st) (eventClients st).
Definition set_currentStatus (s : LabStatus) (st : State) : State :=
  mkState (status st) s (statusClients st) (eventClients st).
Definition set_statusClients (m : gmap string Chan) (st : State) : State :=
  mkState (status st) (currentStatus st) m (eventClients st).
Definition set_eventClients (m : gmap string Chan) (st : State) : State :=
  mkState (status st) (currentStatus st) (statusClients st) m.

(** ** Registry functions (labwatch.go, lines 236-258) *)

Definition addStatusClient (id : string) (ch : Chan) : M unit :=
  emit MutexLock ;;
  modify (fun st => set_statusClients (<[id := ch]> (statusClients st)) st) ;;
  emit (MapStore StatusClients id) ;;
  emit MutexUnlock.

Definition removeStatusClient (id : string) : M unit :=
  emit MutexLock ;;
  modify (fun st => set_statusClients (delete id (statusClients st)) st) ;;
  emit (MapDelete StatusClients id) ;;
  emit MutexUnlock.

Definition addEventClient (id : string) (ch : Chan) : M unit :=
  emit MutexLock ;;
  modify (fun st => set_eventClients (<[id := ch]> (eventClients st)) st) ;;
  emit (MapStore EventClients id) ;;
  emit MutexUnlock.

Definition removeEventClient (id : string) : M unit :=
  emit MutexLock ;;
  modify (fun st => set_eventClients (delete id (eventClients st)) st) ;;
  emit (MapDelete EventClients id) ;;
  emit MutexUnlock.

(** ** The merge loop (labwatch.go, lines 191-231) *)

(** Which arm of the [select] statement ran, with what it received. *)
Inductive SelectCase :=
| CaseTInfo (r : Recv NodeHealth)     (* case t, ok := <-tInfo *)
| CaseStats (r : Recv LogStats)       (* case s, ok := <-stats *)
| CaseEvents (r : Recv LogEvent)      (* case e, ok := <-events *)
| CaseDefault.                        (* default *)

(** [for _, ch := range m { ch <- v }].  Go leaves the iteration order of
    a map unspecified; [map_to_list] fixes one order, and statements about
    the sends are made up to that order. *)
Definition chans (m : gmap string Chan) : list Chan := (map_to_list m).*2.

Fixpoint sendAll (send : Chan -> Event) (chs : list Chan) : M unit :=
  match chs with
  | [] => mret tt
  | ch :: rest => emit (send ch) ;; sendAll send rest
  end.

(** The arm of the [select]; the result is [None] for the [continue] of
    the default arm and [Some broadcastStatusUpdate] otherwise. *)
Definition selectArm (c : SelectCase) : M (option bool) :=
  match c with
  | CaseTInfo (Some t) =>
      modify (fun st => set_status (mkLabStatus t (Logs (status st))) st) ;;
      mret (Some true)
  | CaseTInfo None =>
      emit (LogError "error encountered reading talos states") ;;
      mret (Some false)
  | CaseStats (Some s) =>
      modify (fun st => set_status (mkLabStatus (Talos (status st)) s) st) ;;
      mret (Some true)
  | CaseStats None =>
      emit (LogError "error encountered reading log stats") ;;
      mret (Some false)
  | CaseEvents (Some e) =>
      st ← get;
      emit (MapLen EventClients) ;;
      emit (LogDebug "broadcasting event" (size (eventClients st))) ;;
      emit (MapRange EventClients) ;;
      sendAll (fun ch => SendEvent ch e) (chans (eventClients st)) ;;
      mret (Some false)
  | CaseEvents None =>
      emit (LogError "error encountered reading ") ;;
      mret (Some false)
  | CaseDefault =>
      emit (Sleep 100) ;;
      mret None
  end.

(** Lines 223-229: publish the snapshot, then push it to every status
    subscriber. *)
Definition broadcastStatus : M unit :=
  modify (fun st => set_currentStatus (status st) st) ;;
  st ← get;
  emit (MapLen StatusClients) ;;
  emit (LogDebug "broadcasting status" (size (statusClients st))) ;;
  emit (MapRange StatusClients) ;;
  sendAll (fun ch => SendStatus ch (status st)) (chans (statusClients st)).

(** One pass through the body of the [for] loop. *)
Definition watchloop (c : SelectCase) : M unit :=
  arm ← selectArm c;
  match arm : option bool with
  | None => mret tt
  | Some broadcastStatusUpdate =>
      if broadcastStatusUpdate then broadcastStatus else mret tt
  end.

(** ** The [select] statement

    What each producer channel offers when the [select] is evaluated:
    [None] when a receive cannot proceed (no sender is waiting and the
    channel is open), [Some r] when it can, [r] being what it yields. *)
Record Ready := mkReady {
  tInfoReady : option (Recv NodeHealth);
  statsReady : option (Recv LogStats);
  eventsReady : option (Recv LogEvent)
}.

Definition readyCases (r : Ready) : list SelectCase :=
  match tInfoReady r with Some v => [CaseTInfo v] | None => [] end ++
  match statsReady r with Some v => [CaseStats v] | None => [] end ++
  match eventsReady r with Some v => [CaseEvents v] | None => [] end.

(** Go's [select]: if one or more communications can proceed, one of them
    is chosen ([pick] stands for the runtime's pseudo-random choice);
    otherwise the default arm is chosen. *)
Definition selectCase (r : Ready) (pick : nat) : SelectCase :=
  match readyCases r with
  | [] => CaseDefault
  | c :: cs => nth (Nat.modulo pick (length (c :: cs))) (c :: cs) c
  end.

(** ** Interleaving of the loop with registrations *)

Inductive Op :=
| Iteration (c : SelectCase)
| AddStatusClient (id : string) (ch : Chan)
| RemoveStatusClient (id : string)
| AddEventClient (id : string) (ch : Chan)
| RemoveEventClient (id : string).

Definition step (o : Op) : M unit :=
  match o with
  | Iteration c => watchloop c
  | AddStatusClient id ch => addStatusClient id ch
  | RemoveStatusClient id => removeStatusClient id
  | AddEventClient id ch => addEventClient id ch
  | RemoveEventClient id => removeEventClient id
  end.

Fixpoint run (ops : list Op) : M unit :=
  match ops with
  | [] => mret tt
  | o :: rest => step o ;; run rest
  end.

(** ** The websocket handlers installed by [main] (lines 98-161)

    [json.Marshal] and the transport are external: the encoders are
    parameters, and the outcome of each [conn.WriteMessage] is supplied by
    the environment. *)
Context (marshalStatus : LabStatus -> Bytes).
Context (marshalEvent : LogEvent -> Bytes).

(** What a pass through the [select] of a handler's [for] loop yields:
    the request context is done, or a value arrives on [thisChan] (paired
    with whether the write that follows succeeds). *)
Inductive HandlerSelect (A : Type) :=
| CtxDone
| FromChan (a : A) (writeOk : bool).
Arguments CtxDone {A}.
Arguments FromChan {A} a writeOk.

(** The [for] loop of the /status handler (lines 123-134); the result
    tells whether the handler returned ([true]) or is still blocked in
    its [select] when the inputs are used up ([false]). *)
Fixpoint statusStream (ins : list (HandlerSelect LabStatus)) : M bool :=
  match ins with
  | [] => mret false
  | CtxDone :: _ => mret true
  | FromChan s ok :: rest =>
      emit (ConnWrite (marshalStatus s) ok) ;;
      if ok then statusStream rest else mret true
  end.

(** Lines 117-134: the initial message, then the loop. *)
Definition statusServe (writeOk : bool) (ins : list (HandlerSelect LabStatus)) : M bool :=
  st ← get;
  emit (ConnWrite (marshalStatus (currentStatus st)) writeOk) ;;
  if writeOk then statusStream ins
  else emit (LogInfo "write failed") ;; mret true.

(** The /status handler.  [upgradeHeader] is [r.Header.Get("Upgrade")],
    [upgradeOk] tells whether [u.Upgrade] succeeded, [thisChan] and [uuid]
    are the fresh channel and identifier. *)
Definition statusHandler (upgradeHeader : string) (upgradeOk : bool)
    (thisChan : Chan) (uuid : string) (writeOk : bool)
    (ins : list (HandlerSelect LabStatus)) : M bool :=
  if String.eqb upgradeHeader "" then
    st ← get;
    emit (HttpWrite (marshalStatus (currentStatus st))) ;;
    mret true
  else if negb upgradeOk then
    emit (LogInfo "upgrade failed") ;;
    mret true
  else
    addStatusClient uuid thisChan ;;
    returned ← statusServe writeOk ins;
    (* defer removeStatusClient(uuid) *)
    if returned : bool then removeStatusClient uuid ;; mret true
    else mret false.

(** The [for] loop of the /events handler (lines 150-160). *)
Fixpoint eventStream (ins : list (HandlerSelect LogEvent)) : M bool :=
  match ins with
  | [] => mret false
  | CtxDone :: _ => mret true
  | FromChan e ok :: rest =>
      emit (ConnWrite (marshalEvent e) ok) ;;
      if ok then eventStream rest else mret true
  end.

(** The /events handler. *)
Definition eventHandler (upgradeOk : bool) (thisChan : Chan) (uuid : string)
    (ins : list (HandlerSelect LogEvent)) : M bool :=
  if negb upgradeOk then
    emit (LogInfo "upgrade failed") ;;
    mret true
  else
    addEventClient uuid thisChan ;;
    returned ← eventStream ins;
    (* defer removeEventClient(uuid) *)
    if returned : bool then removeEventClient uuid ;; mret true
    else mret false.

(** The payloads written on a websocket connection, in order. *)
Definition connWrites (t : list Event) : list Bytes :=
  omap (fun e => match e with ConnWrite d _ => Some d | _ => None end) t.

(** ** Lock discipline *)

(** The access an action makes to a registry map, if any. *)
Inductive Access := Reads (r : Registry) | Writes (r : Registry).

Definition access (e : Event) : option Access :=
  match e with
  | MapStore r _ | MapDelete r _ => Some (Writes r)
  | MapLen r | MapRange r => Some (Reads r)
  | _ => None
  end.

(** The registry accesses a goroutine makes while it does not hold the
    mutex; [held] tells whether it holds it at the start of [t]. *)
Fixpoint unguarded (held : bool) (t : list Event) : list Access :=
  match t with
  | [] => []
  | MutexLock :: t' => unguarded true t'
  | MutexUnlock :: t' => unguarded false t'
  | e :: t' =>
      match access e with
      | Some a => if held then unguarded held t' else a :: unguarded held t'
      | None => unguarded held t'
      end
  end.

(** Two accesses conflict when they touch the same map and one writes. *)
Definition conflict (a b : Access) : bool :=
  match a, b with
  | Writes r, Writes r' | Writes r, Reads r' | Reads r, Writes r' =>
      bool_decide (r = r')
  | Reads _, Reads _ => false
  end.

(** The two goroutines of an execution. *)
Inductive Goroutine := Watchloop | Handler.

#[export] Instance Goroutine_eq_dec : EqDecision Goroutine.
Proof. solve_decision. Defined.

(** An execution of two goroutines under a schedule: at each step the
    scheduled goroutine performs its next action.  [lock.Lock()] can be
    performed only while no goroutine holds the mutex, and [holder] is the
    goroutine holding it; [lock.Unlock()] is performed by the holder, as
    in every function of the program.  The result is [None] when the
    schedule asks for a step that cannot be taken; a schedule may stop
    before the goroutines are done. *)
Fixpoint execute (sched : list Goroutine) (holder : option Goroutine)
    (loop handler : list Event) : option (list (Goroutine * Event)) :=
  match sched with
  | [] => Some []
  | g :: sched' =>
      match (match g with Watchloop => loop | Handler => handler end) with
      | [] => None
      | e :: rest =>
          let loop' := match g with Watchloop => rest | Handler => loop end in
          let handler' := match g with Watchloop => handler | Handler => rest end in
          match e with
          | MutexLock =>
              match holder with
              | None => cons (g, e) <$> execute sched' (Some g) loop' handler'
              | Some _ => None
              end
          | MutexUnlock =>
              if bool_decide (holder = Some g)
              then cons (g, e) <$> execute sched' None loop' handler'
              else None
          | _ => cons (g, e) <$> execute sched' holder loop' handler'
          end
      end
  end.

(** A data race: two consecutive steps of an execution, taken by different
    goroutines, make conflicting accesses. *)
Fixpoint racy (x : list (Goroutine * Event)) : bool :=
  match x with
  | (g1, e1) :: (((g2, e2) :: _) as rest) =>
      match access e1, access e2 with
      | Some a1, Some a2 => (negb (bool_decide (g1 = g2)) && conflict a1 a2) || racy rest
      | _, _ => racy rest
      end
  | _ => false
  end.

(** ** Subscriber registries, uniformly *)

Definition clients (r : Registry) (st : State) : gmap string Chan :=
  match r with
  | StatusClients => statusClients st
  | EventClients => eventClients st
  end.

Definition register (r : Registry) (id : string) (ch : Chan) : M unit :=
  match r with
  | StatusClients => addStatusClient id ch
  | EventClients => addEventClient id ch
  end.

Definition unregister (r : Registry) (id : string) : M unit :=
  match r with
  | StatusClients => removeStatusClient id
  | EventClients => removeEventClient id
  end.

(** ** The latest update of each field in a sequence of operations *)

Definition healthUpdate (o : Op) : option NodeHealth :=
  match o with
  | Iteration (CaseTInfo (Some t)) => Some t
  | _ => None
  end.

Definition statsUpdate (o : Op) : option LogStats :=
  match o with
  | Iteration (CaseStats (Some s)) => Some s
  | _ => None
  end.

Fixpoint latestHealth (ops : list Op) : option NodeHealth :=
  match ops with
  | [] => None
  | o :: rest =>
      match latestHealth rest with
      | Some t => Some t
      | None => healthUpdate o
      end
  end.

Fixpoint latestStats (ops : list Op) : option LogStats :=
  match ops with
  | [] => None
  | o :: rest =>
      match latestStats rest with
      | Some s => Some s
      | None => statsUpdate o
      end
  end.

(** The producer channels of the loop and the closure signal of each. *)
Inductive Producer := TInfo | Stats | Events.

Definition closed (p : Producer) : SelectCase :=
  match p with
  | TInfo => CaseTInfo None
  | Stats => CaseStats None
  | Events => CaseEvents None
  end.

(** The combination of the latest health value and the latest stats value
    of [ops], a field without update keeping its value in [prev]. *)
Definition merged (prev : LabStatus) (ops : list Op) : LabStatus :=
  mkLabStatus (default (Talos prev) (latestHealth ops))
              (default (Logs prev) (latestStats ops)).

(** The message logged when the receive on [p] reports a closed channel. *)
Definition closedMessage (p : Producer) : string :=
  match p with
  | TInfo => "error encountered reading talos states"
  | Stats => "error encountered reading log stats"
  | Events => "error encountered reading "
  end.

(** The values a handler received on [thisChan], in order. *)
Definition received {A} (ins : list (HandlerSelect A)) : list A :=
  omap (fun i => match i with FromChan a _ => Some a | CtxDone => None end) ins.

(** Whether goroutine [g] holds the mutex. *)
Definition holds (holder : option Goroutine) (g : Goroutine) : bool :=
  bool_decide (holder = Some g).

(** The actions left to goroutine [g]. *)
Definition pending (g : Goroutine) (loop handler : list Event) : list Event :=
  match g with Watchloop => loop | Handler => handler end.

(** The snapshot an arm of the [select] installs in [status], when the
    arm is a successful receive of a node health or of log statistics. *)
Definition updated (c : SelectCase) (s : LabStatus) : option LabStatus :=
  match c with
  | CaseTInfo (Some t) => Some (mkLabStatus t (Logs s))
  | CaseStats (Some x) => Some (mkLabStatus (Talos s) x)
  | _ => None
  end.

(** The [for] loop of the goroutine, for as many iterations as there are
    entries in [offers]: each iteration evaluates the [select] on what
    the channels offer at that time. *)
Fixpoint loop (offers : list (Ready * nat)) : M unit :=
  match offers with
  | [] => mret tt
  | (r, pick) :: rest => watchloop (selectCase r pick) ;; loop rest
  end.

(** Whether the channel of producer [p] is closed in [r]. *)
Definition closedIn (p : Producer) (r : Ready) : bool :=
  match p with
  | TInfo => match tInfoReady r with Some None => true | _ => false end
  | Stats => match statsReady r with Some None => true | _ => false end
  | Events => match eventsReady r with Some None => true | _ => false end
  end.

(** The channel of [p] is closed and no other channel is ready. *)
Definition closedOnly (p : Producer) : Ready :=
  match p with
  | TInfo => mkReady (Some None) None None
  | Stats => mkReady None (Some None) None
  | Events => mkReady None None (Some None)
  end.

(** Whether the inputs make a handler's [for] loop return: the request
    context is done, or a write fails. *)
Definition streamReturns {A} (ins : list (HandlerSelect A)) : bool :=
  existsb (fun i => match i with CtxDone => true | FromChan _ ok => negb ok end) ins.

(** The outcomes of the writes on a websocket connection, in order. *)
Definition writeResults (t : list Event) : list bool :=
  omap (fun e => match e with ConnWrite _ ok => Some ok | _ => None end) t.

(** A trace that consists of connection writes and info records only. *)
Definition connOnly (t : list Event) : bool :=
  forallb (fun e => match e with ConnWrite _ _ | LogInfo _ => true | _ => false end) t.

(** The common shape of [statusStream] and [eventStream]. *)
Fixpoint stream {A} (marshal : A -> Bytes) (ins : list (HandlerSelect A)) : M bool :=
  match ins with
  | [] => mret false
  | CtxDone :: _ => mret true
  | FromChan a ok :: rest =>
      emit (ConnWrite (marshal a) ok) ;;
      if ok then stream marshal rest else mret true
  end.

(** ** Startup: [main] up to the handlers, and the setup of
    [startWatchers] (labwatch.go, lines 44-96, 163-190) *)

(** [slog.Level]: the four levels the program uses, with their values. *)
Inductive Level := LevelDebug | LevelInfo | LevelWarn | LevelError.

Definition levelValue (l : Level) : Z :=
  match l with
  | LevelDebug => -4
  | LevelInfo => 0
  | LevelWarn => 4
  | LevelError => 8
  end.

(** A handler built with [HandlerOptions{Level: min}] discards the
    records below [min]. *)
Definition enabled (min l : Level) : bool := (levelValue min <=? levelValue l)%Z.

(** [opts.Level] after the [switch *logLevel] of lines 49-59. *)
Definition levelOf (logLevel : string) : Level :=
  if String.eqb logLevel "error" then LevelError
  else if String.eqb logLevel "warn" then LevelWarn
  else if String.eqb logLevel "info" then LevelInfo
  else if String.eqb logLevel "debug" then LevelDebug
  else LevelInfo.

(** [type LabwatchConfig struct] *)
Record LabwatchConfig := mkLabwatchConfig {
  LokiAddress : string;
  LokiQuery : string;
  TalosConfigFile : string;
  TalosClusterName : string
}.

(** The configuration of lines 64-69.  The query is
    [{ host_name =~ ".+" } | json]; its two quotes are character 34. *)
Definition defaultConfig : LabwatchConfig :=
  mkLabwatchConfig
    "boss.local:3100"
    ("{ host_name =~ " ++ String (Ascii.ascii_of_nat 34)
       (".+" ++ String (Ascii.ascii_of_nat 34) " } | json"))
    "/home/boss/talos/talosconfig"
    "koobs".

(** What the environment answers during startup: the two flags as
    [kingpin.Parse] leaves them, and the outcome of the calls into the
    operating system and the libraries ([None] and [false] stand for a
    non-nil error). *)
Record Env := mkEnv {
  logLevel : string;
  config : string;
  readFile : string -> option Bytes;
  yamlUnmarshal : Bytes -> LabwatchConfig -> option LabwatchConfig;
  newTalosWatcher : string -> string -> bool;
  newLokiWatcher : string -> string -> bool
}.

(** The actions of startup, in program order. *)
Inductive Boot :=
| BootLog (l : Level) (msg : string)              (* log.Info / log.Error *)
| ReadFile (path : string)                        (* os.ReadFile *)
| NewTalosWatcher (configFile cluster : string)   (* talos.NewTalosWatcher *)
| GoTalosWatch                                    (* go tWatcher.Watch *)
| NewLokiWatcher (address query : string)         (* loki.NewLokiWatcher *)
| GoLokiWatch                                     (* go lWatcher.Watch *)
| GoWatchloop                                     (* go func() { for { ... } }() *)
| HandleFunc (pattern : string)                   (* http.HandleFunc *)
| ListenAndServe (addr : string)                  (* http.ListenAndServe *)
| Exit (code : Z).                                (* os.Exit *)

(** [startWatchers]: whether it returned a nil error, and what it did. *)
Definition startWatchers (env : Env) (cfg : LabwatchConfig) : bool * list Boot :=
  if newTalosWatcher env (TalosConfigFile cfg) (TalosClusterName cfg) then
    if newLokiWatcher env (LokiAddress cfg) (LokiQuery cfg) then
      (true,
       [NewTalosWatcher (TalosConfigFile cfg) (TalosClusterName cfg); GoTalosWatch;
        NewLokiWatcher (LokiAddress cfg) (LokiQuery cfg); GoLokiWatch;
        GoWatchloop])
    else
      (false,
       [NewTalosWatcher (TalosConfigFile cfg) (TalosClusterName cfg); GoTalosWatch;
        NewLokiWatcher (LokiAddress cfg) (LokiQuery cfg)])
  else
    (false, [NewTalosWatcher (TalosConfigFile cfg) (TalosClusterName cfg)]).

(** [main] from line 84 on, with the configuration it ends up with.
    [http.ListenAndServe] returns only with an error, after which the
    shutdown record is logged. *)
Definition mainWith (env : Env) (cfg : LabwatchConfig) : list Boot :=
  let '(ok, t) := startWatchers env cfg in
  t ++
  if ok then
    [BootLog LevelInfo "watchers initialized";
     HandleFunc "/status"; HandleFunc "/events"; HandleFunc "/";
     ListenAndServe ":8080";
     BootLog LevelInfo "shutting down"]
  else
    [BootLog LevelError "failed to start watchers"; Exit 1].

(** [main]: the records it passes to its logger and the calls it makes. *)
Definition main (env : Env) : list Boot :=
  BootLog LevelInfo "starting up labwatch" ::
  if String.eqb (config env) "" then mainWith env defaultConfig
  else
    ReadFile (config env) ::
    match readFile env (config env) with
    | None => [BootLog LevelError "failed to read provided config file"; Exit 1]
    | Some d =>
        match yamlUnmarshal env d defaultConfig with
        | None => [BootLog LevelError "failed to parse provided config file"; Exit 1]
        | Some cfg => mainWith env cfg
        end
    end.

(** The records of a startup that reach the output, the logger being
    built with the level of the [--log-level] flag. *)
Definition logged (env : Env) : list (Level * string) :=
  omap (fun b => match b with
                 | BootLog l msg =>
                     if enabled (levelOf (logLevel env)) l then Some (l, msg) else None
                 | _ => None
                 end) (main env).

(** The configuration [main] passes to [startWatchers], if it gets
    there. *)
Definition configOf (env : Env) : option LabwatchConfig :=
  if String.eqb (config env) "" then Some defaultConfig
  else d ← readFile env (config env); yamlUnmarshal env d defaultConfig.

(** Whether every step of startup succeeds. *)
Definition startupOk (env : Env) : bool :=
  match configOf env with
  | Some cfg =>
      newTalosWatcher env (TalosConfigFile cfg) (TalosClusterName cfg)
      && newLokiWatcher env (LokiAddress cfg) (LokiQuery cfg)
  | None => false
  end.

(** Every action of [l] that satisfies [q] comes after an action that
    satisfies [p]. *)
Fixpoint precededBy (p q : Boot -> bool) (l : list Boot) : bool :=
  match l with
  | [] => true
  | b :: rest => p b || (negb (q b) && precededBy p q rest)
  end.

(** Installing a handler or opening the port. *)
Definition serves (b : Boot) : bool :=
  match b with HandleFunc _ | ListenAndServe _ => true | _ => false end.

Definition startsLoop (b : Boot) : bool :=
  match b with GoWatchloop => true | _ => false end.

Definition startsTalos (b : Boot) : bool :=
  match b with GoTalosWatch => true | _ => false end.

Definition startsLoki (b : Boot) : bool :=
  match b with GoLokiWatch => true | _ => false end.

(** Whether an operation leaves the status registration of [id] in
    place: it neither removes it nor registers the id again. *)
Definition keeps (id : string) (o : Op) : bool :=
  match o with
  | AddStatusClient id' _ | RemoveStatusClient id' => negb (String.eqb id id')
  | _ => true
  end.

(** ** Delivery: the order of a [range] and sends that wait

    [for _, ch := range m { ch <- v }] visits the entries of the map in
    an order the runtime picks anew at each [range], and each send on
    the unbuffered channel waits until the subscriber receives.  A
    subscriber that does not receive keeps the goroutine in that send:
    the channels after it are not served and the loop does not come back
    to its [select].  [sendAll] and [chans] above are the case in which
    every subscriber receives and the entries are visited in the order
    of [map_to_list]. *)

(** The order picked for a list: [seed] names, step by step, which of
    the entries left is visited next; the entries left when the seed is
    used up are visited in the order they stand. *)
Fixpoint pickOrder {A} (seed : list nat) (l : list A) : list A :=
  match seed, l with
  | k :: seed', x :: _ =>
      let i := Nat.modulo k (length l) in
      nth i l x :: pickOrder seed' (delete i l)
  | _, _ => l
  end.

(** What the environment decides during one iteration of the loop: the
    order of its [range] and which subscribers receive what is sent on
    their channel. *)
Record Delivery := mkDelivery {
  seed : list nat;
  receives : Chan -> bool
}.

(** Every subscriber receives; the entries are visited as [chans] lists
    them. *)
Definition prompt : Delivery := mkDelivery [] (fun _ => true).

(** The channels of a registry in the order of this [range]. *)
Definition rangeOver (d : Delivery) (m : gmap string Chan) : list Chan :=
  pickOrder (seed d) (chans m).

(** [for _, ch := range m { ch <- v }] with sends that wait: the result
    is [true] when the [range] is done, [false] when the goroutine stays
    in the send to a subscriber that does not receive. *)
Fixpoint sendEach (send : Chan -> Event) (receives : Chan -> bool)
    (chs : list Chan) : M bool :=
  match chs with
  | [] => mret true
  | ch :: rest =>
      if receives ch then emit (send ch) ;; sendEach send receives rest
      else mret false
  end.

(** The channels served by such a [range]: those before the first
    subscriber that does not receive. *)
Fixpoint served (receives : Chan -> bool) (chs : list Chan) : list Chan :=
  match chs with
  | [] => []
  | ch :: rest => if receives ch then ch :: served receives rest else []
  end.

(** How the arm of the [select] ends: the goroutine stays in a send, the
    arm ends with [continue], or control reaches line 223 with the flag
    [broadcastStatusUpdate]. *)
Inductive Flow :=
| Stuck
| Continue
| Proceed (broadcastStatusUpdate : bool).

(** The arm of the [select], with sends that wait (lines 194-221). *)
Definition selectArmWith (d : Delivery) (c : SelectCase) : M Flow :=
  match c with
  | CaseTInfo (Some t) =>
      modify (fun st => set_status (mkLabStatus t (Logs (status st))) st) ;;
      mret (Proceed true)
  | CaseTInfo None =>
      emit (LogError "error encountered reading talos states") ;;
      mret (Proceed false)
  | CaseStats (Some s) =>
      modify (fun st => set_status (mkLabStatus (Talos (status st)) s) st) ;;
      mret (Proceed true)
  | CaseStats None =>
      emit (LogError "error encountered reading log stats") ;;
      mret (Proceed false)
  | CaseEvents (Some e) =>
      st ← get;
      emit (MapLen EventClients) ;;
      emit (LogDebug "broadcasting event" (size (eventClients st))) ;;
      emit (MapRange EventClients) ;;
      finished ← sendEach (fun ch => SendEvent ch e) (receives d)
               (rangeOver d (eventClients st));
      mret (if finished : bool then Proceed false else Stuck)
  | CaseEvents None =>
      emit (LogError "error encountered reading ") ;;
      mret (Proceed false)
  | CaseDefault =>
      emit (Sleep 100) ;;
      mret Continue
  end.

(** Lines 223-229 with sends that wait; the result tells whether the
    [range] is done. *)
Definition broadcastStatusWith (d : Delivery) : M bool :=
  modify (fun st => set_currentStatus (status st) st) ;;
  st ← get;
  emit (MapLen StatusClients) ;;
  emit (LogDebug "broadcasting status" (size (statusClients st))) ;;
  emit (MapRange StatusClients) ;;
  sendEach (fun ch => SendStatus ch (status st)) (receives d)
    (rangeOver d (statusClients st)).

(** One pass through the body of the [for] loop with sends that wait.
    The result is [true] when the pass ends and the loop goes on to its
    next [select], [false] when the goroutine stays in a send. *)
Definition watchloopWith (d : Delivery) (c : SelectCase) : M bool :=
  flow ← selectArmWith d c;
  match flow : Flow with
  | Stuck => mret false
  | Continue => mret true
  | Proceed broadcastStatusUpdate =>
      if broadcastStatusUpdate then broadcastStatusWith d else mret true
  end.

(** The calls of the handlers among [ops]: what still happens once the
    loop goroutine stays in a send. *)
Fixpoint handlersOnly (ops : list (Delivery * Op)) : M unit :=
  match ops with
  | [] => mret tt
  | (_, Iteration _) :: rest => handlersOnly rest
  | (_, o) :: rest => step o ;; handlersOnly rest
  end.

(** The loop interleaved with calls of the registry functions, each
    iteration with its own delivery.  The calls fall between the
    iterations: a call made while the loop is inside a [range] is not
    covered by a run (the loop reads the registries without the mutex).
    The result tells whether the loop is still running at the end; an
    iteration that stays in a send is the loop's last. *)
Fixpoint runWith (ops : list (Delivery * Op)) : M bool :=
  match ops with
  | [] => mret true
  | (d, Iteration c) :: rest =>
      alive ← watchloopWith d c;
      if alive : bool then runWith rest else handlersOnly rest ;; mret false
  | (_, o) :: rest => step o ;; runWith rest
  end.

(** * Properties *)

(** ** Running computations *)

(** Membership in a trace: drop the leading actions that differ from the
    one looked for. *)
Ltac skip_others Hin :=
  repeat (apply elem_of_cons in Hin as [Hin|Hin]; [discriminate|]).

Lemma bind_final {A B} (m : M A) (k : A -> M B) (st : State) :
  final ((m ≫= k) st) = final (k (result (m st)) (final (m st))).
Proof.
  unfold final, result, mbind, M_bind.
  destruct (m st) as [[x st1] t1]; simpl.
  destruct (k x st1) as [[y st2] t2]; reflexivity.
Qed.

Lemma bind_trace {A B} (m : M A) (k : A -> M B) (st : State) :
  trace ((m ≫= k) st) = trace (m st) ++ trace (k (result (m st)) (final (m st))).
Proof.
  unfold trace, final, result, mbind, M_bind.
  destruct (m st) as [[x st1] t1]; simpl.
  destruct (k x st1) as [[y st2] t2]; reflexivity.
Qed.

Lemma sendAll_final (send : Chan -> Event) (chs : list Chan) (st : State) :
  final (sendAll send chs st) = st.
Proof.
  induction chs as [|ch rest IH]; [reflexivity|].
  simpl. rewrite bind_final. exact IH.
Qed.

Lemma sendAll_trace (send : Chan -> Event) (chs : list Chan) (st : State) :
  trace (sendAll send chs st) = send <$> chs.
Proof.
  induction chs as [|ch rest IH]; [reflexivity|].
  simpl. rewrite bind_trace. simpl. f_equal. exact IH.
Qed.

Lemma sendAll_eq (send : Chan -> Event) (chs : list Chan) (st : State) :
  sendAll send chs st = (tt, st, send <$> chs).
Proof.
  pose proof (sendAll_final send chs st) as Hf.
  pose proof (sendAll_trace send chs st) as Ht.
  destruct (sendAll send chs st) as [[[] st'] t]. simpl in *.
  unfold final, trace in *. simpl in *. congruence.
Qed.

(** ** Equations of the source functions *)

Lemma addStatusClient_eq (id : string) (ch : Chan) (st : State) :
  addStatusClient id ch st =
  (tt, set_statusClients (<[id := ch]> (statusClients st)) st,
   [MutexLock; MapStore StatusClients id; MutexUnlock]).
Proof. reflexivity. Qed.

Lemma removeStatusClient_eq (id : string) (st : State) :
  removeStatusClient id st =
  (tt, set_statusClients (delete id (statusClients st)) st,
   [MutexLock; MapDelete StatusClients id; MutexUnlock]).
Proof. reflexivity. Qed.

Lemma addEventClient_eq (id : string) (ch : Chan) (st : State) :
  addEventClient id ch st =
  (tt, set_eventClients (<[id := ch]> (eventClients st)) st,
   [MutexLock; MapStore EventClients id; MutexUnlock]).
Proof. reflexivity. Qed.

Lemma removeEventClient_eq (id : string) (st : State) :
  removeEventClient id st =
  (tt, set_eventClients (delete id (eventClients st)) st,
   [MutexLock; MapDelete EventClients id; MutexUnlock]).
Proof. reflexivity. Qed.

Lemma broadcastStatus_eq (st : State) :
  broadcastStatus st =
  (tt, set_currentStatus (status st) st,
   [MapLen StatusClients;
    LogDebug "broadcasting status" (size (statusClients st));
    MapRange StatusClients] ++
   ((fun ch => SendStatus ch (status st)) <$> chans (statusClients st))).
Proof.
  unfold broadcastStatus, mbind, M_bind, modify, get, emit. simpl.
  rewrite sendAll_eq. reflexivity.
Qed.

Lemma watchloop_health (t : NodeHealth) (st : State) :
  watchloop (CaseTInfo (Some t)) st =
  broadcastStatus (set_status (mkLabStatus t (Logs (status st))) st).
Proof.
  unfold watchloop, selectArm, mbind, M_bind, mret, M_ret, modify. simpl.
  destruct (broadcastStatus _) as [[[] st'] tr]. reflexivity.
Qed.

Lemma watchloop_stats (s : LogStats) (st : State) :
  watchloop (CaseStats (Some s)) st =
  broadcastStatus (set_status (mkLabStatus (Talos (status st)) s) st).
Proof.
  unfold watchloop, selectArm, mbind, M_bind, mret, M_ret, modify. simpl.
  destruct (broadcastStatus _) as [[[] st'] tr]. reflexivity.
Qed.

Lemma watchloop_event (e : LogEvent) (st : State) :
  watchloop (CaseEvents (Some e)) st =
  (tt, st,
   [MapLen EventClients;
    LogDebug "broadcasting event" (size (eventClients st));
    MapRange EventClients] ++
   ((fun ch => SendEvent ch e) <$> chans (eventClients st))).
Proof.
  unfold watchloop, selectArm, mbind, M_bind, mret, M_ret, get, emit. simpl.
  rewrite sendAll_eq. simpl. rewrite !app_nil_r. reflexivity.
Qed.

Lemma watchloop_closed (p : Producer) (st : State) :
  watchloop (closed p) st = (tt, st, [LogError (closedMessage p)]).
Proof. destruct p; reflexivity. Qed.

Lemma watchloop_default (st : State) :
  watchloop CaseDefault st = (tt, st, [Sleep 100]).
Proof. reflexivity. Qed.

Lemma run_cons (o : Op) (ops : list Op) (st : State) :
  final (run (o :: ops) st) = final (run ops (final (step o st)))
  ∧ trace (run (o :: ops) st) =
    trace (step o st) ++ trace (run ops (final (step o st))).
Proof. simpl. rewrite bind_final, bind_trace. done. Qed.

Lemma run_app_final (ops1 ops2 : list Op) (st : State) :
  final (run (ops1 ++ ops2) st) = final (run ops2 (final (run ops1 st))).
Proof.
  revert st. induction ops1 as [|o ops1 IH]; intros st; [reflexivity|].
  rewrite <- app_comm_cons.
  rewrite (proj1 (run_cons _ _ _)), (proj1 (run_cons _ _ _)). apply IH.
Qed.

Lemma run_app_trace (ops1 ops2 : list Op) (st : State) :
  trace (run (ops1 ++ ops2) st) =
  trace (run ops1 st) ++ trace (run ops2 (final (run ops1 st))).
Proof.
  revert st. induction ops1 as [|o ops1 IH]; intros st; [reflexivity|].
  rewrite <- app_comm_cons.
  rewrite (proj2 (run_cons _ _ _)), (proj2 (run_cons _ _ _)), (proj1 (run_cons _ _ _)).
  rewrite IH, app_assoc. reflexivity.
Qed.

(** ** The merge loop keeps the latest value of each field *)

Lemma step_status (o : Op) (st : State) :
  status (final (step o st)) = merged (status st) [o].
Proof.
  unfold merged. destruct (status st) as [tl lg] eqn:Hs.
  destruct o as [[[t|]|[s|]|[e|]|]| | | |]; simpl;
    rewrite ?watchloop_health, ?watchloop_stats, ?watchloop_event,
      ?broadcastStatus_eq; simpl;
    first [exact Hs | rewrite Hs; reflexivity].
Qed.

Lemma step_published (o : Op) (st : State) :
  currentStatus st = status st →
  currentStatus (final (step o st)) = status (final (step o st)).
Proof.
  intros Hinv.
  destruct o as [[[t|]|[s|]|[e|]|]| | | |]; simpl;
    rewrite ?watchloop_health, ?watchloop_stats, ?watchloop_event,
      ?broadcastStatus_eq; simpl; try exact Hinv; reflexivity.
Qed.

Lemma run_status (ops : list Op) (st : State) :
  status (final (run ops st)) = merged (status st) ops.
Proof.
  revert st. induction ops as [|o ops IH]; intros st.
  - change (status st = mkLabStatus (Talos (status st)) (Logs (status st))).
    destruct (status st); reflexivity.
  - rewrite (proj1 (run_cons _ _ _)), IH, step_status.
    unfold merged; simpl.
    destruct (latestHealth ops), (latestStats ops); reflexivity.
Qed.

Lemma run_published (ops : list Op) (st : State) :
  currentStatus st = status st →
  currentStatus (final (run ops st)) = status (final (run ops st)).
Proof.
  revert st. induction ops as [|o ops IH]; intros st Hinv; [exact Hinv|].
  rewrite (proj1 (run_cons _ _ _)). apply IH, step_published, Hinv.
Qed.

Lemma watchloop_sends_published (c : SelectCase) (st : State) (ch : Chan) (s : LabStatus) :
  SendStatus ch s ∈ trace (watchloop c st) →
  s = currentStatus (final (watchloop c st)).
Proof.
  destruct c as [[t|]|[s'|]|[e|]|];
    rewrite ?watchloop_health, ?watchloop_stats, ?watchloop_event,
      ?broadcastStatus_eq; simpl; intros Hin.
  - skip_others Hin.
    apply list_elem_of_fmap in Hin as (ch' & Heq & _). congruence.
  - skip_others Hin. by apply elem_of_nil in Hin.
  - skip_others Hin.
    apply list_elem_of_fmap in Hin as (ch' & Heq & _). congruence.
  - skip_others Hin. by apply elem_of_nil in Hin.
  - skip_others Hin.
    apply list_elem_of_fmap in Hin as (ch' & Heq & _). discriminate.
  - skip_others Hin. by apply elem_of_nil in Hin.
  - skip_others Hin. by apply elem_of_nil in Hin.
Qed.

Lemma run_from_init (ops : list Op) :
  currentStatus (final (run ops initState)) = merged zeroLabStatus ops.
Proof.
  rewrite run_published by reflexivity. apply run_status.
Qed.

(** C1.  Whatever operations the loop and the registries have processed
    ([ops0], from the start of the program) and go on to process ([ops]),
    the published snapshot [currentStatus] is the combination of the
    latest node-health value and the latest log-stats value received; a
    field without update keeps its previous value, which is the zero value
    at the start.  An update of one field leaves the other as it was, and
    every snapshot pushed to a subscriber is the published one. *)
Theorem snapshot_merges_latest_updates (ops0 ops : list Op) :
  let st0 := final (run ops0 initState) in
  let st := final (run ops st0) in
  currentStatus st0 = merged zeroLabStatus ops0
  ∧ currentStatus st = merged (currentStatus st0) ops
  ∧ (∀ t, currentStatus (final (watchloop (CaseTInfo (Some t)) st)) =
          mkLabStatus t (Logs (currentStatus st)))
  ∧ (∀ s, currentStatus (final (watchloop (CaseStats (Some s)) st)) =
          mkLabStatus (Talos (currentStatus st)) s)
  ∧ (∀ c ch s, SendStatus ch s ∈ trace (watchloop c st) →
               s = currentStatus (final (watchloop c st))).
Proof.
  intros st0 st.
  assert (H0 : currentStatus st0 = status st0)
    by (apply run_published; reflexivity).
  assert (H1 : currentStatus st = status st)
    by (apply run_published; exact H0).
  split; [|split; [|split; [|split]]].
  - rewrite H0. subst st0. rewrite run_status. reflexivity.
  - rewrite H1, H0. subst st. apply run_status.
  - intros t. rewrite watchloop_health, broadcastStatus_eq, H1. reflexivity.
  - intros s. rewrite watchloop_stats, broadcastStatus_eq, H1. reflexivity.
  - intros c ch s. apply watchloop_sends_published.
Qed.

(** ** The [select] statement and its default arm *)

Lemma default_not_ready (r : Ready) : CaseDefault ∉ readyCases r.
Proof.
  unfold readyCases. intros Hin.
  destruct (tInfoReady r), (statsReady r), (eventsReady r); simpl in Hin;
    skip_others Hin;
    by apply elem_of_nil in Hin.
Qed.

Lemma selectCase_ready (r : Ready) (pick : nat) :
  readyCases r ≠ [] → selectCase r pick ∈ readyCases r.
Proof.
  unfold selectCase. destruct (readyCases r) as [|c cs]; [done|]. intros _.
  apply list_elem_of_In, nth_In, Nat.mod_upper_bound. simpl. lia.
Qed.

(** Every ready arm can be chosen: a channel that stays ready, as a closed
    channel does, does not shut out the others. *)
Lemma ready_case_selectable (r : Ready) (c : SelectCase) :
  c ∈ readyCases r → ∃ pick, selectCase r pick = c.
Proof.
  intros Hin. apply list_elem_of_lookup in Hin as [i Hi]. exists i.
  pose proof (lookup_lt_Some _ _ _ Hi) as Hlt.
  unfold selectCase. destruct (readyCases r) as [|c0 cs]; [discriminate|].
  rewrite Nat.mod_small by exact Hlt.
  rewrite nth_lookup, Hi. reflexivity.
Qed.

Lemma watchloop_sleeps_only_by_default (c : SelectCase) (st : State) (ms : Z) :
  c ≠ CaseDefault → Sleep ms ∉ trace (watchloop c st).
Proof.
  intros Hc Hin.
  destruct c as [[t|]|[s'|]|[e|]|]; [| | | | | |done];
    rewrite ?watchloop_health, ?watchloop_stats, ?watchloop_event,
      ?broadcastStatus_eq in Hin; simpl in Hin;
    skip_others Hin;
    try (by apply elem_of_nil in Hin);
    apply list_elem_of_fmap in Hin as (ch' & Heq & _); discriminate.
Qed.

(** C3, as amended.  The [select] of the loop has a default arm, so its
    wait step does not block.  When no producer channel is ready the
    default arm runs: the iteration sleeps 100 ms and changes nothing
    (a fixed-interval poll).  When at least one channel is ready, one of
    the ready arms runs and the iteration does not sleep. *)
Theorem select_polls_when_nothing_ready (r : Ready) (pick : nat) (st : State) :
  (readyCases r = [] →
     selectCase r pick = CaseDefault
     ∧ watchloop (selectCase r pick) st = (tt, st, [Sleep 100]))
  ∧ (readyCases r ≠ [] →
     selectCase r pick ∈ readyCases r
     ∧ ∀ ms, Sleep ms ∉ trace (watchloop (selectCase r pick) st)).
Proof.
  split.
  - intros Hnone. unfold selectCase. rewrite Hnone. done.
  - intros Hsome. pose proof (selectCase_ready r pick Hsome) as Hin.
    split; [exact Hin|]. intros ms.
    apply watchloop_sleeps_only_by_default.
    intros Heq. rewrite Heq in Hin. by apply default_not_ready in Hin.
Qed.

(** ** The channels of a registry *)

Lemma elem_of_chans (m : gmap string Chan) (ch : Chan) :
  ch ∈ chans m ↔ ∃ id, m !! id = Some ch.
Proof.
  unfold chans. rewrite list_elem_of_fmap. split.
  - intros ([id ch'] & -> & Hin). exists id. by apply elem_of_map_to_list.
  - intros (id & Hid). exists (id, ch). split; [done|].
    by apply elem_of_map_to_list.
Qed.

(** ** The subscriber registries *)

Lemma register_eq (r : Registry) (id : string) (ch : Chan) (st : State) :
  register r id ch st =
  (tt,
   match r with
   | StatusClients => set_statusClients (<[id := ch]> (statusClients st)) st
   | EventClients => set_eventClients (<[id := ch]> (eventClients st)) st
   end,
   [MutexLock; MapStore r id; MutexUnlock]).
Proof. destruct r; reflexivity. Qed.

Lemma unregister_eq (r : Registry) (id : string) (st : State) :
  unregister r id st =
  (tt,
   match r with
   | StatusClients => set_statusClients (delete id (statusClients st)) st
   | EventClients => set_eventClients (delete id (eventClients st)) st
   end,
   [MutexLock; MapDelete r id; MutexUnlock]).
Proof. destruct r; reflexivity. Qed.

Lemma clients_register (r : Registry) (id : string) (ch : Chan) (st : State) :
  clients r (final (register r id ch st)) = <[id := ch]> (clients r st).
Proof. rewrite register_eq. destruct r; reflexivity. Qed.

Lemma clients_unregister (r : Registry) (id : string) (st : State) :
  clients r (final (unregister r id st)) = delete id (clients r st).
Proof. rewrite unregister_eq. destruct r; reflexivity. Qed.

Lemma unregister_absent (r : Registry) (id : string) (st : State) :
  clients r st !! id = None → final (unregister r id st) = st.
Proof.
  intros Hid. rewrite unregister_eq. destruct st as [s cur sc ec].
  destruct r; simpl in *; unfold final, set_statusClients, set_eventClients;
    simpl; by rewrite delete_id.
Qed.

Lemma register_then_unregister (r : Registry) (id : string) (ch : Chan) (st : State) :
  clients r (final ((register r id ch ;; unregister r id) st)) =
  delete id (clients r st).
Proof.
  rewrite bind_final, clients_unregister, clients_register.
  apply delete_insert_eq.
Qed.

(** When the id is already registered, the pair leaves one entry less. *)
Lemma register_unregister_collision (r : Registry) (id : string) (ch : Chan) (st : State) :
  is_Some (clients r st !! id) →
  size (clients r (final ((register r id ch ;; unregister r id) st))) =
  pred (size (clients r st)).
Proof.
  intros Hid. rewrite register_then_unregister. by apply map_size_delete_Some.
Qed.

(** C7, as amended.  For every registry state, every id that is not
    already registered and every channel, registering the id and then
    unregistering it restores the registry, hence its subscriber count,
    and the rest of the state. *)
Theorem register_unregister_restores_count
    (r : Registry) (id : string) (ch : Chan) (st : State) :
  clients r st !! id = None →
  let st' := final ((register r id ch ;; unregister r id) st) in
  size (clients r st') = size (clients r st)
  ∧ clients r st' = clients r st
  ∧ st' = st.
Proof.
  intros Hid st'.
  assert (Hst : st' = st).
  { subst st'. rewrite bind_final, register_eq, unregister_eq.
    destruct st as [s cur sc ec].
    destruct r; simpl in *; unfold final, set_statusClients, set_eventClients;
      simpl; by rewrite delete_insert_id. }
  rewrite Hst. done.
Qed.

(** C8.  Registering an id that is already present replaces the channel
    registered under it: afterwards the id maps to the new channel, every
    other id maps to what it did, and the subscriber count and the set of
    ids are unchanged.  The call only locks, stores and unlocks: nothing
    is logged and nothing is rejected. *)
Theorem register_overwrites_existing
    (r : Registry) (id : string) (old ch : Chan) (st : State) :
  clients r st !! id = Some old →
  let res := register r id ch st in
  clients r (final res) !! id = Some ch
  ∧ (∀ id', id' ≠ id → clients r (final res) !! id' = clients r st !! id')
  ∧ size (clients r (final res)) = size (clients r st)
  ∧ dom (clients r (final res)) = dom (clients r st)
  ∧ trace res = [MutexLock; MapStore r id; MutexUnlock].
Proof.
  intros Hid res. subst res. rewrite clients_register.
  split; [apply lookup_insert_eq|].
  split; [intros id' Hne; by apply lookup_insert_ne|].
  split; [apply map_size_insert_Some; by exists old|].
  split; [|by rewrite register_eq].
  apply dom_insert_lookup_L. by exists old.
Qed.

(** C9.  Unregistering an id that is not registered changes nothing in
    the state; unregistering twice leaves the state that unregistering
    once leaves.  The call only locks, deletes and unlocks. *)
Theorem unregister_is_idempotent (r : Registry) (id : string) (st : State) :
  (clients r st !! id = None → final (unregister r id st) = st)
  ∧ final ((unregister r id ;; unregister r id) st) = final (unregister r id st)
  ∧ trace (unregister r id st) = [MutexLock; MapDelete r id; MutexUnlock].
Proof.
  split; [apply unregister_absent|split].
  - rewrite bind_final. apply unregister_absent.
    rewrite clients_unregister. apply lookup_delete_eq.
  - by rewrite unregister_eq.
Qed.

(** C10.  The two registries are separate state: the status functions
    leave [eventClients] as it was and the event functions leave
    [statusClients] as it was. *)
Theorem registries_are_independent (id : string) (ch : Chan) (st : State) :
  eventClients (final (addStatusClient id ch st)) = eventClients st
  ∧ eventClients (final (removeStatusClient id st)) = eventClients st
  ∧ statusClients (final (addEventClient id ch st)) = statusClients st
  ∧ statusClients (final (removeEventClient id st)) = statusClients st.
Proof. repeat split. Qed.

(** ** The handlers *)

Lemma connWrites_app (t1 t2 : list Event) :
  connWrites (t1 ++ t2) = connWrites t1 ++ connWrites t2.
Proof. apply omap_app. Qed.

Lemma statusServe_trace (writeOk : bool) (ins : list (HandlerSelect LabStatus)) (st : State) :
  ∃ rest, trace (statusServe writeOk ins st) =
          ConnWrite (marshalStatus (currentStatus st)) writeOk :: rest.
Proof.
  unfold statusServe. rewrite bind_trace. simpl. rewrite bind_trace. simpl.
  eexists. reflexivity.
Qed.

Lemma statusServe_silent (st : State) :
  trace (statusServe true [] st) = [ConnWrite (marshalStatus (currentStatus st)) true]
  ∧ result (statusServe true [] st) = false.
Proof. split; reflexivity. Qed.

Lemma statusHandler_trace (a : Ascii.ascii) (hdr : string) (thisChan : Chan) (uuid : string)
    (writeOk : bool) (ins : list (HandlerSelect LabStatus)) (st : State) :
  ∃ rest, trace (statusHandler (String a hdr) true thisChan uuid writeOk ins st) =
          [MutexLock; MapStore StatusClients uuid; MutexUnlock;
           ConnWrite (marshalStatus (currentStatus st)) writeOk] ++ rest.
Proof.
  unfold statusHandler.
  change (String.eqb (String a hdr) "") with false.
  change (negb true) with false. cbv iota.
  rewrite bind_trace, addStatusClient_eq. cbn [result final trace fst snd].
  rewrite bind_trace.
  destruct (statusServe_trace writeOk ins
              (set_statusClients (<[uuid:=thisChan]> (statusClients st)) st))
    as [rest Hrest].
  rewrite Hrest. simpl. eexists. reflexivity.
Qed.

Lemma eventStream_final (ins : list (HandlerSelect LogEvent)) (st : State) :
  final (eventStream ins st) = st.
Proof.
  induction ins as [|[|e ok] ins IH]; try reflexivity.
  simpl. rewrite bind_final. simpl. destruct ok; [exact IH|reflexivity].
Qed.

Lemma eventStream_writes (ins : list (HandlerSelect LogEvent)) (st : State) :
  connWrites (trace (eventStream ins st)) `prefix_of` (marshalEvent <$> received ins).
Proof.
  induction ins as [|[|e ok] ins IH]; simpl.
  - done.
  - apply prefix_nil.
  - rewrite bind_trace. simpl. apply prefix_cons.
    destruct ok; [exact IH|apply prefix_nil].
Qed.

Lemma eventHandler_writes (thisChan : Chan) (uuid : string)
    (ins : list (HandlerSelect LogEvent)) (st : State) :
  connWrites (trace (eventHandler true thisChan uuid ins st)) `prefix_of`
  (marshalEvent <$> received ins).
Proof.
  unfold eventHandler. change (negb true) with false. cbv iota.
  rewrite bind_trace, addEventClient_eq. cbn [result final trace fst snd].
  rewrite bind_trace, !connWrites_app.
  set (st1 := set_eventClients _ st).
  pose proof (eventStream_writes ins st1) as Hpre.
  destruct (result (eventStream ins st1)); simpl;
    rewrite ?bind_trace, ?removeEventClient_eq; simpl;
    rewrite app_nil_r; exact Hpre.
Qed.

(** C5.  A /status request that is upgraded registers its channel and
    then, before anything else happens on the connection, writes the
    published snapshot [currentStatus]: the snapshot is the first message
    whatever follows, and the only one when nothing is ever received on
    the channel ([ins = []]).  After any operations [ops] of the loop and
    the registries, that first message is the combination of the latest
    health and stats values.  An /events request that is upgraded only
    registers its channel: when nothing is received nothing is written,
    and every message written is an event received on the channel. *)
Theorem status_subscriber_gets_snapshot_first
    (a : Ascii.ascii) (hdr : string) (thisChan : Chan) (uuid : string) (writeOk : bool)
    (ins : list (HandlerSelect LabStatus)) (insE : list (HandlerSelect LogEvent))
    (ops : list Op) (st : State) :
  let open := statusHandler (String a hdr) true thisChan uuid writeOk ins in
  (∃ rest, trace (open st) =
           [MutexLock; MapStore StatusClients uuid; MutexUnlock;
            ConnWrite (marshalStatus (currentStatus st)) writeOk] ++ rest)
  ∧ head (connWrites (trace (open st))) = Some (marshalStatus (currentStatus st))
  ∧ head (connWrites (trace (statusServe writeOk ins st))) =
    Some (marshalStatus (currentStatus st))
  ∧ connWrites (trace (statusHandler (String a hdr) true thisChan uuid true [] st)) =
    [marshalStatus (currentStatus st)]
  ∧ head (connWrites (trace (open (final (run ops initState))))) =
    Some (marshalStatus (merged zeroLabStatus ops))
  ∧ trace (eventHandler true thisChan uuid [] st) =
    [MutexLock; MapStore EventClients uuid; MutexUnlock]
  ∧ connWrites (trace (eventHandler true thisChan uuid insE st)) `prefix_of`
    (marshalEvent <$> received insE).
Proof.
  intros open.
  assert (Hhead : ∀ st', head (connWrites (trace (open st'))) =
                         Some (marshalStatus (currentStatus st'))).
  { intros st'. destruct (statusHandler_trace a hdr thisChan uuid writeOk ins st')
      as [rest Hrest]. subst open. rewrite Hrest. reflexivity. }
  split; [apply statusHandler_trace|].
  split; [apply Hhead|].
  split.
  { destruct (statusServe_trace writeOk ins st) as [rest ->]. reflexivity. }
  split; [reflexivity|].
  split.
  { rewrite Hhead.
    pose proof (run_from_init ops) as ->. reflexivity. }
  split; [reflexivity|apply eventHandler_writes].
Qed.

(** ** Lock discipline *)

Lemma unguarded_sendStatus (held : bool) (s : LabStatus) (chs : list Chan) :
  unguarded held ((fun ch => SendStatus ch s) <$> chs) = [].
Proof. induction chs as [|ch chs IH]; [reflexivity|exact IH]. Qed.

Lemma unguarded_sendEvent (held : bool) (e : LogEvent) (chs : list Chan) :
  unguarded held ((fun ch => SendEvent ch e) <$> chs) = [].
Proof. induction chs as [|ch chs IH]; [reflexivity|exact IH]. Qed.

(** A goroutine that guards its accesses holds the mutex at each of them. *)
Lemma unguarded_access (held : bool) (e : Event) (t : list Event) (a : Access) :
  unguarded held (e :: t) = [] → access e = Some a → held = true.
Proof. destruct e, held; simpl; intros Hu Ha; try discriminate; reflexivity. Qed.

Lemma unguarded_tail (held : bool) (e : Event) (t : list Event) :
  unguarded held (e :: t) = [] →
  unguarded (match e with
             | MutexLock => true
             | MutexUnlock => false
             | _ => held
             end) t = [].
Proof. destruct e, held; simpl; intros Hu; try discriminate; exact Hu. Qed.

(** The first step of an execution is the scheduled goroutine's next
    action. *)
Lemma execute_head (sched : list Goroutine) (holder : option Goroutine)
    (loop handler : list Event) (g : Goroutine) (e : Event)
    (x : list (Goroutine * Event)) :
  execute sched holder loop handler = Some ((g, e) :: x) →
  head (pending g loop handler) = Some e.
Proof.
  destruct sched as [|g0 sched]; [discriminate|]. simpl.
  destruct g0; simpl.
  - destruct loop as [|e0 rest]; [discriminate|].
    destruct e0; try destruct holder; try case_bool_decide; try discriminate;
      intros Hx; apply fmap_Some in Hx as (x' & _ & Heq);
      injection Heq as -> -> _; reflexivity.
  - destruct handler as [|e0 rest]; [discriminate|].
    destruct e0; try destruct holder; try case_bool_decide; try discriminate;
      intros Hx; apply fmap_Some in Hx as (x' & _ & Heq);
      injection Heq as -> -> _; reflexivity.
Qed.

(** One step of an execution. *)
Lemma execute_cons (g : Goroutine) (sched : list Goroutine)
    (holder : option Goroutine) (loop handler : list Event)
    (x : list (Goroutine * Event)) :
  execute (g :: sched) holder loop handler = Some x →
  ∃ e rest x',
    pending g loop handler = e :: rest
    ∧ x = (g, e) :: x'
    ∧ (e = MutexLock → holder = None)
    ∧ (e = MutexUnlock → holder = Some g)
    ∧ execute sched
        (match e with
         | MutexLock => Some g
         | MutexUnlock => None
         | _ => holder
         end)
        (match g with Watchloop => rest | Handler => loop end)
        (match g with Watchloop => handler | Handler => rest end) = Some x'.
Proof.
  simpl. fold (pending g loop handler).
  destruct (pending g loop handler) as [|e rest]; [discriminate|].
  intros Hx. exists e, rest.
  destruct e; try destruct holder as [g'|]; try case_bool_decide;
    try discriminate;
    apply fmap_Some in Hx as (x' & Hx' & ->); exists x';
    repeat split; try discriminate; try done.
Qed.

Lemma racy_cons (g1 g2 : Goroutine) (e1 e2 : Event) (x : list (Goroutine * Event)) :
  racy ((g1, e1) :: (g2, e2) :: x) =
  match access e1, access e2 with
  | Some a1, Some a2 =>
      (negb (bool_decide (g1 = g2)) && conflict a1 a2) || racy ((g2, e2) :: x)
  | _, _ => racy ((g2, e2) :: x)
  end.
Proof. reflexivity. Qed.

(** The mutex keeps guarded goroutines apart: when each of the two
    goroutines makes its registry accesses only while it holds the mutex,
    no execution has a data race. *)
Lemma guarded_executions_race_free (sched : list Goroutine) :
  ∀ (holder : option Goroutine) (loop handler : list Event)
    (x : list (Goroutine * Event)),
    unguarded (holds holder Watchloop) loop = [] →
    unguarded (holds holder Handler) handler = [] →
    execute sched holder loop handler = Some x →
    racy x = false.
Proof.
  induction sched as [|g sched IH]; intros holder loop handler x Hl Hh Hx.
  { injection Hx as <-. reflexivity. }
  apply execute_cons in Hx as (e & rest & x' & Hp & -> & Hlock & Hunlock & Hx').
  assert (Hg : unguarded (holds holder g) (e :: rest) = [])
    by (rewrite <- Hp; destruct g; assumption).
  pose proof (unguarded_tail _ _ _ Hg) as Hrest.
  set (holder' := match e with
                  | MutexLock => Some g
                  | MutexUnlock => None
                  | _ => holder
                  end) in *.
  assert (Hsame : holds holder' g =
                  match e with
                  | MutexLock => true
                  | MutexUnlock => false
                  | _ => holds holder g
                  end).
  { subst holder'. unfold holds. destruct e; try reflexivity.
    by rewrite bool_decide_eq_true. }
  assert (Hother : ∀ g', g' ≠ g → holds holder' g' = holds holder g').
  { intros g' Hne. subst holder'. unfold holds.
    destruct e; try reflexivity.
    - rewrite (Hlock eq_refl).
      rewrite !bool_decide_eq_false_2; [done|discriminate|congruence].
    - rewrite (Hunlock eq_refl).
      rewrite !bool_decide_eq_false_2; [done|congruence|discriminate]. }
  assert (Hinv : unguarded (holds holder' Watchloop)
                   (match g with Watchloop => rest | Handler => loop end) = []
                 ∧ unguarded (holds holder' Handler)
                   (match g with Watchloop => handler | Handler => rest end) = []).
  { destruct g; (split; [|]);
      rewrite ?Hsame, ?(Hother Handler), ?(Hother Watchloop) by discriminate;
      assumption. }
  destruct Hinv as [Hl' Hh'].
  pose proof (IH _ _ _ _ Hl' Hh' Hx') as Hrace.
  destruct x' as [|[g2 e2] x'']; [reflexivity|].
  rewrite racy_cons.
  destruct (access e) as [a1|] eqn:Ha1; [|exact Hrace].
  destruct (access e2) as [a2|] eqn:Ha2; [|exact Hrace].
  rewrite Hrace, orb_false_r.
  destruct (decide (g = g2)) as [->|Hne].
  { by rewrite bool_decide_eq_true_2. }
  exfalso.
  pose proof (unguarded_access _ _ _ _ Hg Ha1) as Hheld.
  apply execute_head in Hx'.
  assert (Hheld2 : holds holder' g2 = true).
  { destruct g, g2; try done; simpl in Hx', Hl', Hh'.
    - destruct handler as [|e2' h']; [discriminate|]. injection Hx' as ->.
      exact (unguarded_access _ _ _ _ Hh' Ha2).
    - destruct loop as [|e2' l']; [discriminate|]. injection Hx' as ->.
      exact (unguarded_access _ _ _ _ Hl' Ha2). }
  rewrite Hother in Hheld2 by congruence.
  unfold holds in *. apply bool_decide_eq_true in Hheld, Hheld2. congruence.
Qed.

Lemma registry_functions_guarded (r : Registry) (id : string) (ch : Chan) (st : State) :
  unguarded false (trace (register r id ch st)) = []
  ∧ unguarded false (trace (unregister r id st)) = [].
Proof. rewrite register_eq, unregister_eq. split; reflexivity. Qed.

(** Two calls of the registry functions never race with each other. *)
Lemma registrations_race_free (r1 r2 : Registry) (id1 id2 : string) (ch1 : Chan)
    (st1 st2 : State) (sched : list Goroutine) (x : list (Goroutine * Event)) :
  execute sched None (trace (register r1 id1 ch1 st1))
    (trace (unregister r2 id2 st2)) = Some x →
  racy x = false.
Proof.
  apply guarded_executions_race_free.
  - apply registry_functions_guarded.
  - exact (proj2 (registry_functions_guarded r2 id2 ch1 st2)).
Qed.

(** C4.  The four registry functions touch their map only between
    [lock.Lock()] and [lock.Unlock()].  The broadcasts of the loop do not
    take the lock: [len] and [range] read the registry unguarded, and
    there is an execution in which the loop's [range] over a registry is
    directly followed by a handler's store into the same registry, made
    inside the handler's critical section: a data race. *)
Theorem broadcast_reads_registry_unlocked
    (t : NodeHealth) (e : LogEvent) (id : string) (ch : Chan) (st st' : State) :
  (∀ r, unguarded false (trace (register r id ch st')) = []
        ∧ unguarded false (trace (unregister r id st')) = [])
  ∧ unguarded false (trace (watchloop (CaseTInfo (Some t)) st)) =
    [Reads StatusClients; Reads StatusClients]
  ∧ unguarded false (trace (watchloop (CaseEvents (Some e)) st)) =
    [Reads EventClients; Reads EventClients]
  ∧ (∃ sched x,
       execute sched None (trace (watchloop (CaseTInfo (Some t)) st))
         (trace (addStatusClient id ch st')) = Some x
       ∧ x !! 3 = Some (Watchloop, MapRange StatusClients)
       ∧ x !! 4 = Some (Handler, MapStore StatusClients id)
       ∧ racy x = true)
  ∧ (∃ sched x,
       execute sched None (trace (watchloop (CaseEvents (Some e)) st))
         (trace (addEventClient id ch st')) = Some x
       ∧ x !! 3 = Some (Watchloop, MapRange EventClients)
       ∧ x !! 4 = Some (Handler, MapStore EventClients id)
       ∧ racy x = true).
Proof.
  split; [intros r; apply registry_functions_guarded|].
  rewrite watchloop_health, watchloop_event, broadcastStatus_eq.
  rewrite addStatusClient_eq, addEventClient_eq.
  cbn [trace snd].
  split; [simpl; by rewrite unguarded_sendStatus|].
  split; [simpl; by rewrite unguarded_sendEvent|].
  split; exists [Watchloop; Watchloop; Handler; Watchloop; Handler];
    eexists; (split; [reflexivity|]); repeat split.
Qed.

(** ** More on the registries *)

(** X1.  Registering an id that is not yet present adds exactly that
    entry: the id maps to the channel, every other id maps to what it
    did, and the subscriber count grows by one. *)
Theorem register_fresh_adds_one
    (r : Registry) (id : string) (ch : Chan) (st : State) :
  clients r st !! id = None →
  let st' := final (register r id ch st) in
  clients r st' !! id = Some ch
  ∧ (∀ id', id' ≠ id → clients r st' !! id' = clients r st !! id')
  ∧ size (clients r st') = S (size (clients r st))
  ∧ dom (clients r st') = {[id]} ∪ dom (clients r st).
Proof.
  intros Hid st'. subst st'. rewrite clients_register.
  split; [apply lookup_insert_eq|].
  split; [intros id' Hne; by apply lookup_insert_ne|].
  split; [by apply map_size_insert_None|apply dom_insert_L].
Qed.

(** X2.  Unregistering removes the entry of that id and no other: the id
    is absent afterwards, every other id maps to what it did, and the
    count drops by one exactly when the id was present. *)
Theorem unregister_removes_only_that_id (r : Registry) (id : string) (st : State) :
  let st' := final (unregister r id st) in
  clients r st' !! id = None
  ∧ (∀ id', id' ≠ id → clients r st' !! id' = clients r st !! id')
  ∧ size (clients r st') =
    match clients r st !! id with
    | Some _ => pred (size (clients r st))
    | None => size (clients r st)
    end
  ∧ dom (clients r st') = dom (clients r st) ∖ {[id]}.
Proof.
  intros st'. subst st'. rewrite clients_unregister.
  split; [apply lookup_delete_eq|].
  split; [intros id' Hne; by apply lookup_delete_ne|].
  split; [|apply dom_delete_L].
  rewrite map_size_delete. by destruct (clients r st !! id).
Qed.

Lemma state_eq (st1 st2 : State) :
  status st1 = status st2 →
  currentStatus st1 = currentStatus st2 →
  statusClients st1 = statusClients st2 →
  eventClients st1 = eventClients st2 →
  st1 = st2.
Proof. destruct st1, st2; simpl; congruence. Qed.

(** X3.  Calls of the registry functions on different ids, or on
    different registries, commute: the state they leave does not depend
    on which call ran first.  Two removals commute in every case. *)
Theorem registry_calls_commute
    (r1 r2 : Registry) (id1 id2 : string) (ch1 ch2 : Chan) (st : State) :
  r1 ≠ r2 ∨ id1 ≠ id2 →
  final ((register r1 id1 ch1 ;; register r2 id2 ch2) st) =
  final ((register r2 id2 ch2 ;; register r1 id1 ch1) st)
  ∧ final ((register r1 id1 ch1 ;; unregister r2 id2) st) =
    final ((unregister r2 id2 ;; register r1 id1 ch1) st)
  ∧ final ((unregister r1 id1 ;; unregister r2 id2) st) =
    final ((unregister r2 id2 ;; unregister r1 id1) st).
Proof.
  intros Hne. rewrite !bind_final, !register_eq, !unregister_eq.
  destruct r1, r2; cbn [final result fst snd];
    (repeat split; apply state_eq; simpl; try reflexivity);
    try apply delete_delete;
    destruct Hne as [Hne|Hne]; try done;
    first [ apply insert_insert_ne; congruence
          | apply delete_insert_ne; congruence ].
Qed.

(** ** More on the merge loop *)


Lemma watchloop_updated (c : SelectCase) (new : LabStatus) (st : State) :
  updated c (status st) = Some new →
  watchloop c st = broadcastStatus (set_status new st).
Proof.
  destruct c as [[t|]|[s|]|[e|]|]; simpl; intros Hu; try discriminate;
    injection Hu as <-; [apply watchloop_health|apply watchloop_stats].
Qed.

Lemma watchloop_registries (c : SelectCase) (st : State) :
  statusClients (final (watchloop c st)) = statusClients st
  ∧ eventClients (final (watchloop c st)) = eventClients st.
Proof.
  destruct c as [[t|]|[s|]|[e|]|];
    rewrite ?watchloop_health, ?watchloop_stats, ?watchloop_event,
      ?broadcastStatus_eq; split; reflexivity.
Qed.

Lemma loop_cons (r : Ready) (pick : nat) (offers : list (Ready * nat)) (st : State) :
  final (loop ((r, pick) :: offers) st) =
  final (loop offers (final (watchloop (selectCase r pick) st)))
  ∧ trace (loop ((r, pick) :: offers) st) =
    trace (watchloop (selectCase r pick) st) ++
    trace (loop offers (final (watchloop (selectCase r pick) st))).
Proof. simpl. rewrite bind_final, bind_trace. done. Qed.

(** X5.  The loop never registers or unregisters: however many
    iterations run and whatever they receive, both registries are as
    they were, and so is each single iteration's. *)
Theorem loop_never_touches_registries (offers : list (Ready * nat)) (st : State) :
  statusClients (final (loop offers st)) = statusClients st
  ∧ eventClients (final (loop offers st)) = eventClients st
  ∧ ∀ c, statusClients (final (watchloop c st)) = statusClients st
         ∧ eventClients (final (watchloop c st)) = eventClients st.
Proof.
  split; [|split; [|intros c; apply watchloop_registries]];
    revert st; induction offers as [|[r pick] offers IH]; intros st;
    try reflexivity; rewrite (proj1 (loop_cons _ _ _ _)), IH;
    apply watchloop_registries.
Qed.

Lemma closedIn_ready (p : Producer) (r : Ready) :
  closedIn p r = true → closed p ∈ readyCases r.
Proof.
  unfold readyCases.
  destruct p; simpl;
    destruct (tInfoReady r) as [[?|]|], (statsReady r) as [[?|]|],
      (eventsReady r) as [[?|]|];
    try discriminate; intros _; simpl;
    repeat first [apply list_elem_of_here | apply list_elem_of_further].
Qed.

Lemma selectCase_closedOnly (p : Producer) (pick : nat) :
  selectCase (closedOnly p) pick = closed p.
Proof.
  assert (Hr : readyCases (closedOnly p) = [closed p]) by (destruct p; reflexivity).
  pose proof (selectCase_ready (closedOnly p) pick) as Hin.
  rewrite Hr in Hin. by apply list_elem_of_singleton, Hin.
Qed.

Lemma unit_run_eq (r : unit * State * list Event) : r = (tt, final r, trace r).
Proof. destruct r as [[[] st] tr]. reflexivity. Qed.

(** X7.  A closed producer channel is always ready, so from then on the
    default arm is never taken and the loop never sleeps.  While nothing
    else is ready every iteration takes the closed arm: [n] iterations
    log the same error [n] times and change nothing. *)
Theorem closed_channel_makes_loop_spin
    (p : Producer) (picks : list nat) (r : Ready) (pick : nat) (st : State) :
  loop ((fun k => (closedOnly p, k)) <$> picks) st =
  (tt, st, replicate (length picks) (LogError (closedMessage p)))
  ∧ (closedIn p r = true →
     selectCase r pick ∈ readyCases r
     ∧ ∀ ms, Sleep ms ∉ trace (watchloop (selectCase r pick) st)).
Proof.
  split.
  - induction picks as [|k picks IH]; [reflexivity|].
    pose proof (loop_cons (closedOnly p) k
                  ((fun k => (closedOnly p, k)) <$> picks) st) as [Hf Ht].
    rewrite selectCase_closedOnly, watchloop_closed in Hf, Ht.
    cbn [final trace fst snd] in Hf, Ht. rewrite IH in Hf, Ht.
    cbn [final trace fst snd] in Hf, Ht.
    rewrite fmap_cons, (unit_run_eq (loop _ st)), Hf, Ht. reflexivity.
  - intros Hc. apply closedIn_ready in Hc.
    assert (Hne : readyCases r ≠ []) by (intros Hnil; rewrite Hnil in Hc; by apply elem_of_nil in Hc).
    pose proof (selectCase_ready r pick Hne) as Hin.
    split; [exact Hin|]. intros ms.
    apply watchloop_sleeps_only_by_default.
    intros Heq. rewrite Heq in Hin. by apply default_not_ready in Hin.
Qed.

Lemma readyCases_offers (r : Ready) :
  (∀ v, CaseTInfo v ∈ readyCases r → tInfoReady r = Some v)
  ∧ (∀ v, CaseStats v ∈ readyCases r → statsReady r = Some v)
  ∧ (∀ v, CaseEvents v ∈ readyCases r → eventsReady r = Some v).
Proof.
  unfold readyCases.
  destruct (tInfoReady r), (statsReady r), (eventsReady r); simpl;
    repeat split; intros v Hin;
    repeat (apply elem_of_cons in Hin as [Hin|Hin];
            [first [discriminate | by injection Hin as ->]|]);
    by apply elem_of_nil in Hin.
Qed.

Lemma selectCase_cases (r : Ready) (pick : nat) :
  selectCase r pick ∈ readyCases r ∨ selectCase r pick = CaseDefault.
Proof.
  destruct (readyCases r) as [|c cs] eqn:Hr.
  - right. unfold selectCase. by rewrite Hr.
  - left. rewrite <- Hr. apply selectCase_ready. by rewrite Hr.
Qed.

(** X8.  The [select] gives no arm priority and invents nothing: every
    arm whose channel is ready is chosen for some choice of the runtime,
    and the arm that runs carries exactly what its channel offered. *)
Theorem select_is_fair_and_exact (r : Ready) :
  (∀ c, c ∈ readyCases r → ∃ pick, selectCase r pick = c)
  ∧ (∀ pick v, selectCase r pick = CaseTInfo v → tInfoReady r = Some v)
  ∧ (∀ pick v, selectCase r pick = CaseStats v → statsReady r = Some v)
  ∧ (∀ pick v, selectCase r pick = CaseEvents v → eventsReady r = Some v).
Proof.
  destruct (readyCases_offers r) as (Ht & Hs & He).
  split; [apply ready_case_selectable|].
  repeat split; intros pick v Heq;
    destruct (selectCase_cases r pick) as [Hin|Hd];
    try (rewrite Heq in Hd; discriminate);
    rewrite Heq in Hin; auto.
Qed.

(** ** More on the handlers *)

Lemma statusStream_stream (ins : list (HandlerSelect LabStatus)) :
  statusStream ins = stream marshalStatus ins.
Proof.
  induction ins as [|[|s ok] ins IH]; simpl; try reflexivity. by rewrite IH.
Qed.

Lemma eventStream_stream (ins : list (HandlerSelect LogEvent)) :
  eventStream ins = stream marshalEvent ins.
Proof.
  induction ins as [|[|e ok] ins IH]; simpl; try reflexivity. by rewrite IH.
Qed.

Lemma stream_cons {A} (marshal : A -> Bytes) (a : A) (ok : bool)
    (ins : list (HandlerSelect A)) (st : State) :
  stream marshal (FromChan a ok :: ins) st =
  (if ok then result (stream marshal ins st) else true,
   if ok then final (stream marshal ins st) else st,
   ConnWrite (marshal a) ok :: if ok then trace (stream marshal ins st) else []).
Proof.
  simpl. unfold mbind, M_bind, emit. simpl.
  destruct ok; [|reflexivity].
  destruct (stream marshal ins st) as [[b st'] tr]. reflexivity.
Qed.

Lemma stream_final {A} (marshal : A -> Bytes) (ins : list (HandlerSelect A)) (st : State) :
  final (stream marshal ins st) = st.
Proof.
  induction ins as [|[|a ok] ins IH]; try reflexivity.
  rewrite stream_cons. destruct ok; [exact IH|reflexivity].
Qed.

Lemma stream_result {A} (marshal : A -> Bytes) (ins : list (HandlerSelect A)) (st : State) :
  result (stream marshal ins st) = streamReturns ins.
Proof.
  induction ins as [|[|a ok] ins IH]; try reflexivity.
  rewrite stream_cons. destruct ok; [exact IH|reflexivity].
Qed.

Lemma stream_connOnly {A} (marshal : A -> Bytes) (ins : list (HandlerSelect A)) (st : State) :
  connOnly (trace (stream marshal ins st)) = true.
Proof.
  induction ins as [|[|a ok] ins IH]; try reflexivity.
  rewrite stream_cons. destruct ok; [exact IH|reflexivity].
Qed.

Lemma stream_writes_prefix {A} (marshal : A -> Bytes) (ins : list (HandlerSelect A)) (st : State) :
  connWrites (trace (stream marshal ins st)) `prefix_of` (marshal <$> received ins).
Proof.
  induction ins as [|[|a ok] ins IH].
  - done.
  - apply prefix_nil.
  - rewrite stream_cons. cbn [trace snd]. simpl. apply prefix_cons.
    destruct ok; [exact IH|apply prefix_nil].
Qed.

Lemma stream_writes_all {A} (marshal : A -> Bytes) (ins : list (HandlerSelect A)) (st : State) :
  streamReturns ins = false →
  connWrites (trace (stream marshal ins st)) = marshal <$> received ins.
Proof.
  induction ins as [|[|a ok] ins IH]; try done.
  intros Hr. simpl in Hr. apply orb_false_iff in Hr as [Hok Hr].
  apply negb_false_iff in Hok as ->.
  rewrite stream_cons. cbn [trace snd]. simpl. f_equal. by apply IH.
Qed.

Lemma stream_failed_last {A} (marshal : A -> Bytes) (ins : list (HandlerSelect A))
    (st : State) (i : nat) :
  writeResults (trace (stream marshal ins st)) !! i = Some false →
  S i = length (writeResults (trace (stream marshal ins st))).
Proof.
  revert i. induction ins as [|[|a ok] ins IH]; intros i; try done.
  rewrite stream_cons. cbn [trace snd]. simpl.
  destruct ok.
  - destruct i as [|i]; [discriminate|]. simpl. intros Hi. f_equal. by apply IH.
  - destruct i as [|i]; [reflexivity|]. discriminate.
Qed.

Lemma statusServe_eq (writeOk : bool) (ins : list (HandlerSelect LabStatus)) (st : State) :
  statusServe writeOk ins st =
  (if writeOk then streamReturns ins else true, st,
   ConnWrite (marshalStatus (currentStatus st)) writeOk ::
   if writeOk then trace (stream marshalStatus ins st) else [LogInfo "write failed"]).
Proof.
  unfold statusServe. rewrite statusStream_stream.
  unfold mbind, M_bind, get, emit. simpl.
  destruct writeOk; [|reflexivity].
  rewrite (surjective_pairing (stream marshalStatus ins st)).
  rewrite (surjective_pairing (stream marshalStatus ins st).1).
  change (stream marshalStatus ins st).1.1 with (result (stream marshalStatus ins st)).
  change (stream marshalStatus ins st).1.2 with (final (stream marshalStatus ins st)).
  rewrite stream_result, stream_final. reflexivity.
Qed.

Lemma statusHandler_eq (a : Ascii.ascii) (hdr : string) (thisChan : Chan) (uuid : string)
    (writeOk : bool) (ins : list (HandlerSelect LabStatus)) (st : State) :
  let st1 := set_statusClients (<[uuid := thisChan]> (statusClients st)) st in
  let returned := if writeOk then streamReturns ins else true in
  statusHandler (String a hdr) true thisChan uuid writeOk ins st =
  (returned,
   if returned then set_statusClients (delete uuid (statusClients st1)) st1 else st1,
   [MutexLock; MapStore StatusClients uuid; MutexUnlock] ++
   trace (statusServe writeOk ins st1) ++
   if returned then [MutexLock; MapDelete StatusClients uuid; MutexUnlock] else []).
Proof.
  intros st1 returned. unfold statusHandler.
  change (String.eqb (String a hdr) "") with false.
  change (negb true) with false. cbv iota.
  unfold mbind at 1. unfold M_bind at 1. rewrite addStatusClient_eq. fold st1.
  unfold mbind at 1. unfold M_bind at 1. rewrite statusServe_eq. fold returned.
  destruct returned; reflexivity.
Qed.

Lemma eventHandler_eq (thisChan : Chan) (uuid : string)
    (ins : list (HandlerSelect LogEvent)) (st : State) :
  let st1 := set_eventClients (<[uuid := thisChan]> (eventClients st)) st in
  let returned := streamReturns ins in
  eventHandler true thisChan uuid ins st =
  (returned,
   if returned then set_eventClients (delete uuid (eventClients st1)) st1 else st1,
   [MutexLock; MapStore EventClients uuid; MutexUnlock] ++
   trace (stream marshalEvent ins st1) ++
   if returned then [MutexLock; MapDelete EventClients uuid; MutexUnlock] else []).
Proof.
  intros st1 returned. unfold eventHandler.
  change (negb true) with false. cbv iota.
  unfold mbind at 1. unfold M_bind at 1. rewrite addEventClient_eq. fold st1.
  unfold mbind at 1. unfold M_bind at 1. rewrite eventStream_stream.
  rewrite (surjective_pairing (stream marshalEvent ins st1)).
  rewrite (surjective_pairing (stream marshalEvent ins st1).1).
  change (stream marshalEvent ins st1).1.1 with (result (stream marshalEvent ins st1)).
  change (stream marshalEvent ins st1).1.2 with (final (stream marshalEvent ins st1)).
  change (stream marshalEvent ins st1).2 with (trace (stream marshalEvent ins st1)).
  rewrite stream_result, stream_final. fold returned.
  destruct returned; reflexivity.
Qed.

Lemma statusServe_connOnly (writeOk : bool) (ins : list (HandlerSelect LabStatus)) (st : State) :
  connOnly (trace (statusServe writeOk ins st)) = true.
Proof.
  rewrite statusServe_eq. cbn [trace snd]. simpl.
  destruct writeOk; [apply stream_connOnly|reflexivity].
Qed.

Lemma connOnly_unguarded (held : bool) (t t' : list Event) :
  connOnly t = true → unguarded held (t ++ t') = unguarded held t'.
Proof.
  induction t as [|e t IH]; [done|]. simpl. intros Hc.
  apply andb_true_iff in Hc as [He Hc]. destruct e; try discriminate; by apply IH.
Qed.

Lemma writeResults_app (t1 t2 : list Event) :
  writeResults (t1 ++ t2) = writeResults t1 ++ writeResults t2.
Proof. apply omap_app. Qed.

(** X9.  A handler returns exactly when its request context is done or
    a write on its connection fails.  When it returns, its id is no
    longer registered (the deferred removal ran), and if the id was not
    registered before the request the whole state is as it was; as long
    as it has not returned, its id is registered with its channel. *)
Theorem handler_unregisters_on_return
    (a : Ascii.ascii) (hdr : string) (thisChan : Chan) (uuid : string) (writeOk : bool)
    (ins : list (HandlerSelect LabStatus)) (insE : list (HandlerSelect LogEvent))
    (st : State) :
  let rs := statusHandler (String a hdr) true thisChan uuid writeOk ins st in
  let re := eventHandler true thisChan uuid insE st in
  result rs = (negb writeOk || streamReturns ins)
  ∧ statusClients (final rs) =
    (if result rs then delete uuid (statusClients st)
     else <[uuid := thisChan]> (statusClients st))
  ∧ result re = streamReturns insE
  ∧ eventClients (final re) =
    (if result re then delete uuid (eventClients st)
     else <[uuid := thisChan]> (eventClients st))
  ∧ (statusClients st !! uuid = None → result rs = true → final rs = st)
  ∧ (eventClients st !! uuid = None → result re = true → final re = st).
Proof.
  intros rs re. subst rs re. rewrite statusHandler_eq, eventHandler_eq.
  cbn [result final fst snd].
  split; [by destruct writeOk|].
  split.
  { destruct (if writeOk then streamReturns ins else true); simpl;
      [apply delete_insert_eq|reflexivity]. }
  split; [reflexivity|].
  split.
  { destruct (streamReturns insE); simpl; [apply delete_insert_eq|reflexivity]. }
  split.
  - intros Hfresh ->. destruct st as [s cur sc ec].
    unfold set_statusClients; simpl in *. by rewrite delete_insert_id.
  - intros Hfresh ->. destruct st as [s cur sc ec].
    unfold set_eventClients; simpl in *. by rewrite delete_insert_id.
Qed.

(** X10.  A /status request without an [Upgrade] header is answered with
    the published snapshot, which after any operations of the loop and
    the registries is the combination of the latest values; it subscribes
    nothing.  A request whose upgrade fails is only logged.  In both
    cases the state is untouched and the mutex is not taken. *)
Theorem request_without_upgrade_changes_nothing
    (a : Ascii.ascii) (hdr : string) (upgradeOk : bool) (thisChan : Chan) (uuid : string)
    (writeOk : bool) (ins : list (HandlerSelect LabStatus))
    (insE : list (HandlerSelect LogEvent)) (ops : list Op) (st : State) :
  statusHandler "" upgradeOk thisChan uuid writeOk ins st =
  (true, st, [HttpWrite (marshalStatus (currentStatus st))])
  ∧ trace (statusHandler "" upgradeOk thisChan uuid writeOk ins
             (final (run ops initState))) =
    [HttpWrite (marshalStatus (merged zeroLabStatus ops))]
  ∧ statusHandler (String a hdr) false thisChan uuid writeOk ins st =
    (true, st, [LogInfo "upgrade failed"])
  ∧ eventHandler false thisChan uuid insE st =
    (true, st, [LogInfo "upgrade failed"]).
Proof.
  split; [reflexivity|]. split; [|split; reflexivity].
  change (trace (statusHandler "" upgradeOk thisChan uuid writeOk ins
                   (final (run ops initState))))
    with [HttpWrite (marshalStatus (currentStatus (final (run ops initState))))].
  by rewrite run_from_init.
Qed.

(** X11.  On its connection a /status subscriber gets the snapshot and
    then the snapshots received on its channel, in the order received,
    none invented, skipped or repeated: what is written after the
    snapshot is a prefix of what was received.  An /events subscriber
    gets the events received on its channel likewise: what is written
    is a prefix of what was received.  As long as no write fails and
    the context is not done, everything received is written.  A failed
    write is the last write on the connection. *)
Theorem subscriber_messages_follow_channel_order
    (a : Ascii.ascii) (hdr : string) (thisChan : Chan) (uuid : string) (writeOk : bool)
    (ins : list (HandlerSelect LabStatus)) (insE : list (HandlerSelect LogEvent))
    (st : State) :
  let ts := trace (statusHandler (String a hdr) true thisChan uuid writeOk ins st) in
  let te := trace (eventHandler true thisChan uuid insE st) in
  (∃ ws, connWrites ts = marshalStatus (currentStatus st) :: ws
         ∧ ws `prefix_of` (marshalStatus <$> received ins))
  ∧ (writeOk = true → streamReturns ins = false →
     connWrites ts = marshalStatus (currentStatus st) :: (marshalStatus <$> received ins))
  ∧ connWrites te `prefix_of` (marshalEvent <$> received insE)
  ∧ (streamReturns insE = false → connWrites te = marshalEvent <$> received insE)
  ∧ (∀ i, writeResults ts !! i = Some false → S i = length (writeResults ts))
  ∧ (∀ i, writeResults te !! i = Some false → S i = length (writeResults te)).
Proof.
  intros ts te. subst ts te. rewrite statusHandler_eq, eventHandler_eq, statusServe_eq.
  cbn [trace snd].
  set (st1 := set_statusClients _ st). set (st2 := set_eventClients _ st).
  assert (Htail : ∀ (b : bool) (r : Registry),
            connWrites (if b then [MutexLock; MapDelete r uuid; MutexUnlock] else []) = []
            ∧ writeResults (if b then [MutexLock; MapDelete r uuid; MutexUnlock] else []) = [])
    by (intros [] r; split; reflexivity).
  rewrite !connWrites_app, !writeResults_app.
  rewrite !(proj1 (Htail _ _)), !(proj2 (Htail _ _)), !app_nil_r.
  change (connWrites [MutexLock; MapStore StatusClients uuid; MutexUnlock]) with (@nil Bytes).
  change (connWrites [MutexLock; MapStore EventClients uuid; MutexUnlock]) with (@nil Bytes).
  change (writeResults [MutexLock; MapStore StatusClients uuid; MutexUnlock]) with (@nil bool).
  change (writeResults [MutexLock; MapStore EventClients uuid; MutexUnlock]) with (@nil bool).
  rewrite !app_nil_l.
  split; [|split; [|split; [|split; [|split]]]].
  - destruct writeOk; simpl.
    + eexists. split; [reflexivity|apply stream_writes_prefix].
    + exists []. split; [reflexivity|apply prefix_nil].
  - intros -> Hr. simpl. f_equal. by apply stream_writes_all.
  - apply stream_writes_prefix.
  - apply stream_writes_all.
  - intros i. destruct writeOk; simpl.
    + destruct i as [|i]; [discriminate|]. simpl. intros Hi. f_equal.
      by apply stream_failed_last.
    + destruct i as [|i]; [reflexivity|discriminate].
  - apply stream_failed_last.
Qed.

(** X12.  On every path a handler leaves alone what is not its own: the
    loop's snapshot, the published snapshot, the other registry, and the
    entry of every other id in its own registry. *)
Theorem handlers_leave_the_rest_alone
    (upgradeHeader : string) (upgradeOk : bool) (thisChan : Chan) (uuid : string)
    (writeOk : bool) (ins : list (HandlerSelect LabStatus))
    (insE : list (HandlerSelect LogEvent)) (st : State) :
  let rs := final (statusHandler upgradeHeader upgradeOk thisChan uuid writeOk ins st) in
  let re := final (eventHandler upgradeOk thisChan uuid insE st) in
  (status rs = status st ∧ currentStatus rs = currentStatus st
   ∧ eventClients rs = eventClients st
   ∧ ∀ id, id ≠ uuid → statusClients rs !! id = statusClients st !! id)
  ∧ (status re = status st ∧ currentStatus re = currentStatus st
     ∧ statusClients re = statusClients st
     ∧ ∀ id, id ≠ uuid → eventClients re !! id = eventClients st !! id).
Proof.
  intros rs re. subst rs re. split.
  - destruct upgradeHeader as [|a hdr]; [by repeat split|].
    destruct upgradeOk; [|by repeat split].
    rewrite statusHandler_eq. cbn [final fst snd].
    destruct (if writeOk then streamReturns ins else true);
      (repeat split; try reflexivity); intros id Hne; simpl;
      rewrite ?lookup_delete_ne by done; by rewrite lookup_insert_ne.
  - destruct upgradeOk; [|by repeat split].
    rewrite eventHandler_eq. cbn [final fst snd].
    destruct (streamReturns insE);
      (repeat split; try reflexivity); intros id Hne; simpl;
      rewrite ?lookup_delete_ne by done; by rewrite lookup_insert_ne.
Qed.

Lemma statusHandler_guarded
    (upgradeHeader : string) (upgradeOk : bool) (thisChan : Chan) (uuid : string)
    (writeOk : bool) (ins : list (HandlerSelect LabStatus)) (st : State) :
  unguarded false
    (trace (statusHandler upgradeHeader upgradeOk thisChan uuid writeOk ins st)) = [].
Proof.
  destruct upgradeHeader as [|a hdr]; [reflexivity|].
  destruct upgradeOk; [|reflexivity].
  rewrite statusHandler_eq. cbn [trace snd].
  change (unguarded false ([MutexLock; MapStore StatusClients uuid; MutexUnlock] ++ ?t))
    with (unguarded false t).
  rewrite connOnly_unguarded by apply statusServe_connOnly.
  by destruct (if writeOk then streamReturns ins else true).
Qed.

Lemma eventHandler_guarded
    (upgradeOk : bool) (thisChan : Chan) (uuid : string)
    (ins : list (HandlerSelect LogEvent)) (st : State) :
  unguarded false (trace (eventHandler upgradeOk thisChan uuid ins st)) = [].
Proof.
  destruct upgradeOk; [|reflexivity].
  rewrite eventHandler_eq. cbn [trace snd].
  change (unguarded false ([MutexLock; MapStore EventClients uuid; MutexUnlock] ++ ?t))
    with (unguarded false t).
  rewrite connOnly_unguarded by apply stream_connOnly.
  by destruct (streamReturns ins).
Qed.

(** X13.  On every path both handlers touch the registries only while
    holding the mutex, so two requests served concurrently never race on
    a registry, whatever the schedule: neither two /status requests, nor
    two /events requests, nor one of each (the two requests take the two
    places of an execution). *)
Theorem concurrent_handlers_never_race
    (hdr1 hdr2 : string) (up1 up2 upE1 upE2 : bool) (ch1 ch2 chE1 chE2 : Chan)
    (id1 id2 idE1 idE2 : string) (w1 w2 : bool)
    (ins1 ins2 : list (HandlerSelect LabStatus))
    (insE1 insE2 : list (HandlerSelect LogEvent))
    (st1 st2 st3 st4 : State) :
  let s1 := trace (statusHandler hdr1 up1 ch1 id1 w1 ins1 st1) in
  let s2 := trace (statusHandler hdr2 up2 ch2 id2 w2 ins2 st2) in
  let e1 := trace (eventHandler upE1 chE1 idE1 insE1 st3) in
  let e2 := trace (eventHandler upE2 chE2 idE2 insE2 st4) in
  unguarded false s1 = [] ∧ unguarded false e1 = []
  ∧ (∀ sched x, execute sched None s1 s2 = Some x → racy x = false)
  ∧ (∀ sched x, execute sched None s1 e1 = Some x → racy x = false)
  ∧ (∀ sched x, execute sched None e1 e2 = Some x → racy x = false).
Proof.
  intros s1 s2 e1 e2.
  pose proof (statusHandler_guarded hdr1 up1 ch1 id1 w1 ins1 st1) as H1.
  pose proof (statusHandler_guarded hdr2 up2 ch2 id2 w2 ins2 st2) as H2.
  pose proof (eventHandler_guarded upE1 chE1 idE1 insE1 st3) as H3.
  pose proof (eventHandler_guarded upE2 chE2 idE2 insE2 st4) as H4.
  split; [exact H1|]. split; [exact H3|].
  repeat split; intros sched x; by apply guarded_executions_race_free.
Qed.

(** ** Startup *)

(** Case analysis on what the environment answers during startup. *)
Ltac startup_cases env :=
  unfold logged, main, mainWith, startWatchers, startupOk, configOf;
  destruct (String.eqb (config env) "") eqn:?; simpl;
  repeat match goal with
    | |- context [readFile env ?p] => destruct (readFile env p) eqn:?; simpl
    | |- context [yamlUnmarshal env ?d ?c] => destruct (yamlUnmarshal env d c) eqn:?; simpl
    | |- context [newTalosWatcher env ?a ?b] => destruct (newTalosWatcher env a b) eqn:?; simpl
    | |- context [newLokiWatcher env ?a ?b] => destruct (newLokiWatcher env a b) eqn:?; simpl
    end.

(** Membership in a list that is written out. *)
Ltac in_list :=
  solve [repeat first [apply list_elem_of_here | apply list_elem_of_further]].
Ltac not_in_list :=
  let Hin := fresh "Hin" in
  intros Hin; skip_others Hin; by apply elem_of_nil in Hin.
(** Whether an action occurs in a list that is written out. *)
Ltac occurs_iff :=
  split; [first [by intros _ | not_in_list] | first [discriminate | intros _; in_list]].

Lemma error_always_enabled (s : string) : enabled (levelOf s) LevelError = true.
Proof. unfold levelOf. repeat case_match; reflexivity. Qed.

(** X14.  Whatever the [--log-level] flag holds, error records pass the
    logger's filter; debug records pass exactly when the flag is
    [debug]; a value that is none of the four names (the empty default
    included) gives the level [info]. *)
Theorem log_level_flag_filters (s : string) :
  enabled (levelOf s) LevelError = true
  ∧ (enabled (levelOf s) LevelDebug = true ↔ s = "debug")
  ∧ (s ≠ "error" → s ≠ "warn" → s ≠ "debug" → levelOf s = LevelInfo).
Proof.
  split; [apply error_always_enabled|]. unfold levelOf.
  destruct (String.eqb_spec s "error") as [->|He]; [by repeat split|].
  destruct (String.eqb_spec s "warn") as [->|Hw]; [by repeat split|].
  destruct (String.eqb_spec s "info") as [->|Hi]; [by repeat split|].
  destruct (String.eqb_spec s "debug") as [->|Hd]; by repeat split.
Qed.

(** X15.  Startup is all or nothing for the service: the loop goroutine
    is started and the port is opened exactly when the configuration
    loads and both watchers are constructed.  Otherwise [main] ends with
    an error record followed by [os.Exit(1)], the record passes the
    logger's filter whatever the log level, and no handler is installed.
    [main] exits with no other code. *)
Theorem startup_failure_is_fatal (env : Env) :
  (GoWatchloop ∈ main env ↔ startupOk env = true)
  ∧ (ListenAndServe ":8080" ∈ main env ↔ startupOk env = true)
  ∧ (Exit 1 ∈ main env ↔ startupOk env = false)
  ∧ (∀ code, Exit code ∈ main env → code = 1%Z)
  ∧ (startupOk env = false →
     (∃ pre msg, main env = pre ++ [BootLog LevelError msg; Exit 1]
                 ∧ last (logged env) = Some (LevelError, msg))
     ∧ ∀ p, HandleFunc p ∉ main env).
Proof.
  pose proof (error_always_enabled (logLevel env)) as Herr.
  split; [|split; [|split; [|split]]].
  - startup_cases env; occurs_iff.
  - startup_cases env; occurs_iff.
  - startup_cases env; occurs_iff.
  - intros code. startup_cases env; intros Hin; skip_others Hin;
      try (by apply elem_of_nil in Hin);
      apply elem_of_cons in Hin as [Hin|Hin];
      first [by injection Hin | by apply elem_of_nil in Hin].
  - startup_cases env; try done; intros _; rewrite ?Herr;
      (split; [|intros p; not_in_list]).
    + exists [BootLog LevelInfo "starting up labwatch";
              NewTalosWatcher (TalosConfigFile defaultConfig) (TalosClusterName defaultConfig);
              GoTalosWatch;
              NewLokiWatcher (LokiAddress defaultConfig) (LokiQuery defaultConfig)], "failed to start watchers".
      split; [reflexivity|]. by destruct (enabled _ LevelInfo).
    + exists [BootLog LevelInfo "starting up labwatch";
              NewTalosWatcher (TalosConfigFile defaultConfig) (TalosClusterName defaultConfig)],
        "failed to start watchers".
      split; [reflexivity|]. by destruct (enabled _ LevelInfo).
    + eexists [_; _; _; _; _], _. split; [reflexivity|]. by destruct (enabled _ LevelInfo).
    + eexists [_; _; _], _. split; [reflexivity|]. by destruct (enabled _ LevelInfo).
    + eexists [_; _], _. split; [reflexivity|]. by destruct (enabled _ LevelInfo).
    + eexists [_; _], _. split; [reflexivity|]. by destruct (enabled _ LevelInfo).
Qed.

(** X16.  The watchers are constructed with the configuration [main]
    loaded and with no other: the defaults when the [--config] flag is
    empty, in which case no file is read, and otherwise what
    [yaml.Unmarshal] made of the defaults and the file named by the
    flag.  The log watcher is constructed only after the node watcher
    was constructed without error. *)
Theorem watchers_get_the_loaded_configuration (env : Env) :
  (config env = "" →
     configOf env = Some defaultConfig ∧ ∀ p, ReadFile p ∉ main env)
  ∧ (∀ p, ReadFile p ∈ main env → p = config env ∧ p ≠ "")
  ∧ (∀ f c, NewTalosWatcher f c ∈ main env →
       ∃ cfg, configOf env = Some cfg
              ∧ f = TalosConfigFile cfg ∧ c = TalosClusterName cfg)
  ∧ (∀ a q, NewLokiWatcher a q ∈ main env →
       ∃ cfg, configOf env = Some cfg
              ∧ a = LokiAddress cfg ∧ q = LokiQuery cfg
              ∧ newTalosWatcher env (TalosConfigFile cfg) (TalosClusterName cfg) = true).
Proof.
  split; [|split; [|split]].
  - intros Hc. unfold configOf, main, mainWith, startWatchers. rewrite Hc. simpl.
    split; [reflexivity|]. intros p.
    repeat match goal with
      | |- context [newTalosWatcher env ?a ?b] => destruct (newTalosWatcher env a b); simpl
      | |- context [newLokiWatcher env ?a ?b] => destruct (newLokiWatcher env a b); simpl
      end; not_in_list.
  - intros p. destruct (String.eqb_spec (config env) "") as [Hc|Hc].
    + unfold main, mainWith, startWatchers. rewrite Hc. simpl.
      repeat match goal with
        | |- context [newTalosWatcher env ?a ?b] => destruct (newTalosWatcher env a b); simpl
        | |- context [newLokiWatcher env ?a ?b] => destruct (newLokiWatcher env a b); simpl
        end; not_in_list.
    + startup_cases env; intros Hin; skip_others Hin;
        try (by apply elem_of_nil in Hin);
        (apply elem_of_cons in Hin as [Hin|Hin];
         [injection Hin as ->; done|skip_others Hin; by apply elem_of_nil in Hin]).
  - intros f c. startup_cases env; intros Hin; skip_others Hin;
      try (by apply elem_of_nil in Hin);
      (apply elem_of_cons in Hin as [Hin|Hin];
       [injection Hin as -> ->; by eexists
       |skip_others Hin; by apply elem_of_nil in Hin]).
  - intros a q. startup_cases env; intros Hin; skip_others Hin;
      try (by apply elem_of_nil in Hin);
      (apply elem_of_cons in Hin as [Hin|Hin];
       [injection Hin as -> ->; by eexists
       |skip_others Hin; by apply elem_of_nil in Hin]).
Qed.

(** X17.  Nothing is served before the loop runs: in every startup the
    handlers are installed and the port is opened only after the loop
    goroutine was started, which is only after both watcher goroutines
    were.  [startWatchers] is not all or nothing: when the log watcher
    cannot be constructed the node watcher's goroutine is already
    running when the program exits, the other two are not started. *)
Theorem watchers_run_before_anything_is_served (env : Env) :
  precededBy startsLoop serves (main env) = true
  ∧ precededBy startsLoki startsLoop (main env) = true
  ∧ precededBy startsTalos startsLoki (main env) = true
  ∧ (∀ cfg, configOf env = Some cfg →
       newTalosWatcher env (TalosConfigFile cfg) (TalosClusterName cfg) = true →
       newLokiWatcher env (LokiAddress cfg) (LokiQuery cfg) = false →
       GoTalosWatch ∈ main env ∧ Exit 1%Z ∈ main env
       ∧ (GoLokiWatch ∉ main env) ∧ (GoWatchloop ∉ main env)).
Proof.
  split; [|split; [|split]].
  - startup_cases env; reflexivity.
  - startup_cases env; reflexivity.
  - startup_cases env; reflexivity.
  - intros cfg. unfold configOf, main, mainWith, startWatchers.
    destruct (String.eqb (config env) ""); simpl.
    + intros [= <-] Ht Hl. simpl in Ht, Hl. rewrite Ht, Hl. simpl.
      repeat split; first [in_list | not_in_list].
    + destruct (readFile env (config env)) as [d|]; simpl; [|discriminate].
      intros Hcfg Ht Hl. rewrite Hcfg, Ht, Hl. simpl.
      repeat split; first [in_list | not_in_list].
Qed.

(** ** A subscriber across a run *)

Lemma step_keeps (id : string) (o : Op) (st : State) :
  keeps id o = true →
  statusClients (final (step o st)) !! id = statusClients st !! id.
Proof.
  destruct o as [c|id' ch|id'|id' ch|id']; simpl; intros Hk.
  - by rewrite (proj1 (watchloop_registries c st)).
  - apply negb_true_iff, String.eqb_neq in Hk. by apply lookup_insert_ne.
  - apply negb_true_iff, String.eqb_neq in Hk. by apply lookup_delete_ne.
  - reflexivity.
  - reflexivity.
Qed.

Lemma run_keeps (id : string) (ops : list Op) (st : State) :
  forallb (keeps id) ops = true →
  statusClients (final (run ops st)) !! id = statusClients st !! id.
Proof.
  revert st. induction ops as [|o ops IH]; intros st Hk; [reflexivity|].
  simpl in Hk. apply andb_true_iff in Hk as [Ho Hk].
  rewrite (proj1 (run_cons _ _ _)), IH by exact Hk. by apply step_keeps.
Qed.

(** ** Delivery *)

Lemma pickOrder_perm {A} (seed : list nat) (l : list A) : pickOrder seed l ≡ₚ l.
Proof.
  revert l. induction seed as [|k seed IH]; intros l; [by destruct l|].
  destruct l as [|x l]; [reflexivity|].
  cbn [pickOrder]. set (i := Nat.modulo k (length (x :: l))).
  assert (Hi : i < length (x :: l)) by (apply Nat.mod_upper_bound; simpl; lia).
  destruct (lookup_lt_is_Some_2 _ _ Hi) as [y Hy].
  rewrite (nth_lookup_Some _ _ _ _ Hy), IH.
  symmetry. by apply delete_Permutation.
Qed.

(** Every order of the entries is picked by some seed. *)
Lemma pickOrder_any {A} (l' : list A) :
  ∀ l, l' ≡ₚ l → ∃ seed, pickOrder seed l = l'.
Proof.
  induction l' as [|x l' IH]; intros l Hp.
  - apply Permutation_nil_l in Hp as ->. by exists [].
  - assert (Hx : x ∈ l) by (rewrite <- Hp; apply list_elem_of_here).
    apply list_elem_of_lookup in Hx as [i Hi].
    pose proof (lookup_lt_Some _ _ _ Hi) as Hlt.
    assert (Hrest : l' ≡ₚ delete i l).
    { apply (Permutation_cons_inv (a := x)).
      rewrite Hp. by apply delete_Permutation. }
    destruct (IH _ Hrest) as [seed Hseed]. exists (i :: seed).
    destruct l as [|y l]; [simpl in Hlt; lia|].
    cbn [pickOrder]. rewrite Nat.mod_small by exact Hlt.
    by rewrite (nth_lookup_Some _ _ _ _ Hi), Hseed.
Qed.

Lemma rangeOver_perm (d : Delivery) (m : gmap string Chan) :
  rangeOver d m ≡ₚ chans m.
Proof. apply pickOrder_perm. Qed.

Lemma elem_of_rangeOver (d : Delivery) (m : gmap string Chan) (ch : Chan) :
  ch ∈ rangeOver d m ↔ ∃ id, m !! id = Some ch.
Proof. by rewrite rangeOver_perm, elem_of_chans. Qed.


Lemma served_all (receives : Chan -> bool) (chs : list Chan) :
  forallb receives chs = true → served receives chs = chs.
Proof.
  induction chs as [|ch chs IH]; [done|]. simpl. intros Hall.
  apply andb_true_iff in Hall as [-> Hall]. by rewrite IH.
Qed.



Lemma forallb_receives (receives : Chan -> bool) (chs : list Chan) :
  (∀ ch, ch ∈ chs → receives ch = true) → forallb receives chs = true.
Proof.
  induction chs as [|ch chs IH]; [done|]. simpl. intros Hall.
  rewrite (Hall ch) by apply list_elem_of_here. simpl.
  apply IH. intros ch' Hin. by apply Hall, list_elem_of_further.
Qed.

Lemma sendEach_eq (send : Chan -> Event) (receives : Chan -> bool)
    (chs : list Chan) (st : State) :
  sendEach send receives chs st =
  (forallb receives chs, st, send <$> served receives chs).
Proof.
  induction chs as [|ch chs IH]; [reflexivity|]. simpl.
  destruct (receives ch); [|reflexivity].
  unfold mbind, M_bind, emit. rewrite IH. reflexivity.
Qed.

Lemma broadcastStatusWith_eq (d : Delivery) (st : State) :
  broadcastStatusWith d st =
  (forallb (receives d) (rangeOver d (statusClients st)),
   set_currentStatus (status st) st,
   [MapLen StatusClients;
    LogDebug "broadcasting status" (size (statusClients st));
    MapRange StatusClients] ++
   ((fun ch => SendStatus ch (status st)) <$>
    served (receives d) (rangeOver d (statusClients st)))).
Proof.
  unfold broadcastStatusWith, mbind, M_bind, modify, get, emit. simpl.
  rewrite sendEach_eq. reflexivity.
Qed.

Lemma watchloopWith_updated (d : Delivery) (c : SelectCase) (new : LabStatus) (st : State) :
  updated c (status st) = Some new →
  watchloopWith d c st = broadcastStatusWith d (set_status new st).
Proof.
  destruct c as [[t|]|[s|]|[e|]|]; simpl; intros Hu; try discriminate;
    injection Hu as <-;
    unfold watchloopWith, selectArmWith, mbind, M_bind, mret, M_ret, modify; simpl;
    by destruct (broadcastStatusWith d _) as [[b st'] tr].
Qed.

Lemma watchloopWith_event (d : Delivery) (e : LogEvent) (st : State) :
  watchloopWith d (CaseEvents (Some e)) st =
  (forallb (receives d) (rangeOver d (eventClients st)), st,
   [MapLen EventClients;
    LogDebug "broadcasting event" (size (eventClients st));
    MapRange EventClients] ++
   ((fun ch => SendEvent ch e) <$>
    served (receives d) (rangeOver d (eventClients st)))).
Proof.
  unfold watchloopWith, selectArmWith, mbind, M_bind, mret, M_ret, get, emit. simpl.
  rewrite sendEach_eq. simpl.
  destruct (forallb _ _); simpl; by rewrite !app_nil_r.
Qed.


Lemma watchloopWith_default (d : Delivery) (st : State) :
  watchloopWith d CaseDefault st = (true, st, [Sleep 100]).
Proof. reflexivity. Qed.

(** What an iteration does to the state does not depend on the
    delivery: the snapshot is published before the first send. *)
Lemma watchloopWith_final (d : Delivery) (c : SelectCase) (st : State) :
  final (watchloopWith d c st) = final (watchloop c st).
Proof.
  destruct (updated c (status st)) as [new|] eqn:Hu.
  - by rewrite (watchloopWith_updated _ _ _ _ Hu), (watchloop_updated _ _ _ Hu),
      broadcastStatusWith_eq, broadcastStatus_eq.
  - destruct c as [[t|]|[s|]|[e|]|]; try discriminate; try reflexivity.
    by rewrite watchloopWith_event, watchloop_event.
Qed.

Lemma rangeOver_prompt (m : gmap string Chan) : rangeOver prompt m = chans m.
Proof. unfold rangeOver. simpl. by destruct (chans m). Qed.

(** With every subscriber receiving and the entries visited as [chans]
    lists them, an iteration is the one of [watchloop]. *)
Lemma watchloopWith_prompt (c : SelectCase) (st : State) :
  watchloopWith prompt c st = (true, final (watchloop c st), trace (watchloop c st)).
Proof.
  assert (Hall : ∀ chs, forallb (receives prompt) chs = true
                        ∧ served (receives prompt) chs = chs).
  { intros chs. assert (H : forallb (receives prompt) chs = true)
      by (by apply forallb_receives). split; [exact H|by apply served_all]. }
  destruct (updated c (status st)) as [new|] eqn:Hu.
  - rewrite (watchloopWith_updated _ _ _ _ Hu), (watchloop_updated _ _ _ Hu),
      broadcastStatusWith_eq, broadcastStatus_eq.
    rewrite !rangeOver_prompt, (proj1 (Hall _)), (proj2 (Hall _)). reflexivity.
  - destruct c as [[t|]|[s|]|[e|]|]; try discriminate; try reflexivity.
    rewrite watchloopWith_event, watchloop_event.
    rewrite !rangeOver_prompt, (proj1 (Hall _)), (proj2 (Hall _)). reflexivity.
Qed.

Lemma run_eq {A} (r : A * State * list Event) : r = (result r, final r, trace r).
Proof. by destruct r as [[a st] tr]. Qed.

Lemma runWith_iteration (d : Delivery) (c : SelectCase)
    (rest : list (Delivery * Op)) (st : State) :
  let r := watchloopWith d c st in
  runWith ((d, Iteration c) :: rest) st =
  if result r
  then (result (runWith rest (final r)), final (runWith rest (final r)),
        trace r ++ trace (runWith rest (final r)))
  else (false, final (handlersOnly rest (final r)),
        trace r ++ trace (handlersOnly rest (final r))).
Proof.
  intros r. subst r. cbn [runWith]. unfold mbind at 1. unfold M_bind at 1.
  rewrite (run_eq (watchloopWith d c st)).
  cbn [result final trace fst snd].
  destruct (result (watchloopWith d c st)).
  - by rewrite (run_eq (runWith rest _)) at 1.
  - unfold mbind, M_bind, mret, M_ret.
    rewrite (run_eq (handlersOnly rest _)) at 1.
    cbn [result final trace fst snd]. by rewrite app_nil_r.
Qed.

Lemma runWith_call (d : Delivery) (o : Op) (rest : list (Delivery * Op)) (st : State) :
  (∀ c, o ≠ Iteration c) →
  runWith ((d, o) :: rest) st =
  (result (runWith rest (final (step o st))),
   final (runWith rest (final (step o st))),
   trace (step o st) ++ trace (runWith rest (final (step o st)))).
Proof.
  intros Ho.
  assert (Hr : runWith ((d, o) :: rest) st = (step o ;; runWith rest) st)
    by (destruct o; try reflexivity; by destruct (Ho c)).
  rewrite Hr. unfold mbind, M_bind.
  rewrite (run_eq (step o st)). cbn [result final trace fst snd].
  by rewrite (run_eq (runWith rest _)) at 1.
Qed.

(** A run whose loop is still running goes on with what follows. *)
Lemma runWith_app (ops1 ops2 : list (Delivery * Op)) (st : State) :
  result (runWith ops1 st) = true →
  runWith (ops1 ++ ops2) st =
  (result (runWith ops2 (final (runWith ops1 st))),
   final (runWith ops2 (final (runWith ops1 st))),
   trace (runWith ops1 st) ++ trace (runWith ops2 (final (runWith ops1 st)))).
Proof.
  revert st. induction ops1 as [|[d o] ops1 IH]; intros st Halive.
  - simpl. apply run_eq.
  - rewrite <- app_comm_cons.
    destruct o as [c|id ch|id|id ch|id];
      try (rewrite !runWith_call in * by discriminate;
           cbn [result final trace fst snd] in *;
           rewrite IH by exact Halive; cbn [result final trace fst snd];
           by rewrite app_assoc).
    rewrite !runWith_iteration in *. cbv zeta in *.
    destruct (result (watchloopWith d c st)); [|discriminate].
    cbn [result final trace fst snd] in *.
    rewrite IH by exact Halive. cbn [result final trace fst snd].
    by rewrite app_assoc.
Qed.

Lemma handlersOnly_keeps (id : string) (ops : list (Delivery * Op)) (st : State) :
  forallb (fun x => keeps id x.2) ops = true →
  statusClients (final (handlersOnly ops st)) !! id = statusClients st !! id.
Proof.
  revert st. induction ops as [|[d o] ops IH]; intros st Hk; [reflexivity|].
  simpl in Hk. apply andb_true_iff in Hk as [Ho Hk].
  destruct o as [c|id' ch|id'|id' ch|id']; cbn [handlersOnly];
    rewrite ?bind_final, IH by exact Hk; try reflexivity;
    by apply (step_keeps id _ st).
Qed.

Lemma runWith_keeps (id : string) (ops : list (Delivery * Op)) (st : State) :
  forallb (fun x => keeps id x.2) ops = true →
  statusClients (final (runWith ops st)) !! id = statusClients st !! id.
Proof.
  revert st. induction ops as [|[d o] ops IH]; intros st Hk; [reflexivity|].
  simpl in Hk. apply andb_true_iff in Hk as [Ho Hk].
  destruct o as [c|id' ch|id'|id' ch|id'];
    try (rewrite runWith_call by discriminate; cbn [final fst snd];
         rewrite IH by exact Hk; by apply (step_keeps id _ st)).
  rewrite runWith_iteration. cbv zeta.
  destruct (result (watchloopWith d c st)); cbn [final fst snd].
  - rewrite IH by exact Hk. rewrite watchloopWith_final.
    by rewrite (proj1 (watchloop_registries c st)).
  - rewrite handlersOnly_keeps by exact Hk. rewrite watchloopWith_final.
    by rewrite (proj1 (watchloop_registries c st)).
Qed.

(** ** Broadcasts with sends that wait *)

Lemma receives_all (d : Delivery) (m : gmap string Chan) :
  (∀ ch, ch ∈ chans m → receives d ch = true) →
  forallb (receives d) (rangeOver d m) = true
  ∧ served (receives d) (rangeOver d m) = rangeOver d m.
Proof.
  intros Hall.
  assert (H : forallb (receives d) (rangeOver d m) = true).
  { apply forallb_receives. intros ch Hin. apply Hall. by rewrite <- (rangeOver_perm d). }
  split; [exact H|by apply served_all].
Qed.



(** X6.  The loop has no change detection.  An iteration that receives
    again the value the previous iteration received finds the snapshot
    already installed and published, leaves the state as it is, and
    broadcasts that snapshot again: to every registered channel when
    every subscriber receives, and in any case to the channels visited
    before the first subscriber that does not. *)
Theorem repeated_input_is_rebroadcast
    (d1 d2 : Delivery) (c : SelectCase) (new : LabStatus) (st : State) :
  updated c (status st) = Some new →
  let st1 := final (watchloopWith d1 c st) in
  let r2 := watchloopWith d2 c st1 in
  updated c (status st1) = Some new
  ∧ currentStatus st1 = new
  ∧ final r2 = st1
  ∧ trace r2 =
    [MapLen StatusClients;
     LogDebug "broadcasting status" (size (statusClients st));
     MapRange StatusClients] ++
    ((fun ch => SendStatus ch new) <$>
     served (receives d2) (rangeOver d2 (statusClients st)))
  ∧ ((∀ ch, ch ∈ chans (statusClients st) → receives d2 ch = true) →
     result r2 = true
     ∧ ∀ ch id, statusClients st !! id = Some ch → SendStatus ch new ∈ trace r2).
Proof.
  intros Hu st1 r2.
  assert (Hst1 : st1 = set_currentStatus new (set_status new st)).
  { subst st1. by rewrite (watchloopWith_updated _ _ _ _ Hu), broadcastStatusWith_eq. }
  assert (Hu1 : updated c (status st1) = Some new).
  { rewrite Hst1. destruct c as [[t|]|[s|]|[e|]|]; simpl in *; try discriminate;
      by injection Hu as <-. }
  subst r2. clearbody st1. subst st1.
  rewrite (watchloopWith_updated d2 c new _ Hu1), broadcastStatusWith_eq.
  cbn [result final trace fst snd set_status set_currentStatus
         status currentStatus statusClients eventClients].
  split; [exact Hu1|]. split; [reflexivity|]. split; [reflexivity|].
  split; [reflexivity|].
  intros Hall. destruct (receives_all d2 _ Hall) as [Hok Hserved].
  split; [exact Hok|]. intros ch id Hid. rewrite Hserved.
  do 3 apply list_elem_of_further. apply list_elem_of_fmap. exists ch.
  split; [reflexivity|]. apply elem_of_rangeOver. by exists id.
Qed.

(** ** Runs with sends that wait *)

Lemma handlersOnly_cons (d : Delivery) (o : Op) (rest : list (Delivery * Op)) (st : State) :
  handlersOnly ((d, o) :: rest) st =
  match o with
  | Iteration _ => handlersOnly rest st
  | _ => (tt, final (handlersOnly rest (final (step o st))),
          trace (step o st) ++ trace (handlersOnly rest (final (step o st))))
  end.
Proof.
  destruct o; try reflexivity; cbn [handlersOnly]; unfold mbind, M_bind;
    rewrite (run_eq (step _ st)); cbn [result final trace fst snd];
    by rewrite (unit_run_eq (handlersOnly rest _)) at 1.
Qed.

Lemma handlersOnly_app (ops1 ops2 : list (Delivery * Op)) (st : State) :
  handlersOnly (ops1 ++ ops2) st =
  (tt, final (handlersOnly ops2 (final (handlersOnly ops1 st))),
   trace (handlersOnly ops1 st) ++ trace (handlersOnly ops2 (final (handlersOnly ops1 st)))).
Proof.
  revert st. induction ops1 as [|[d o] ops1 IH]; intros st.
  - simpl. apply unit_run_eq.
  - rewrite <- app_comm_cons, !handlersOnly_cons.
    destruct o; try apply IH; rewrite IH; cbn [final trace fst snd];
      by rewrite app_assoc.
Qed.

(** The registry functions publish nothing and send nothing. *)
Lemma handlersOnly_quiet (ops : list (Delivery * Op)) (st : State) :
  currentStatus (final (handlersOnly ops st)) = currentStatus st
  ∧ status (final (handlersOnly ops st)) = status st
  ∧ (∀ ch s, SendStatus ch s ∉ trace (handlersOnly ops st))
  ∧ (∀ ch e, SendEvent ch e ∉ trace (handlersOnly ops st)).
Proof.
  revert st. induction ops as [|[d o] ops IH]; intros st.
  - repeat split; intros ? ? Hin; by apply elem_of_nil in Hin.
  - rewrite handlersOnly_cons.
    destruct o as [c|id ch|id|id ch|id]; [apply IH|..];
      cbn [step];
      rewrite ?addStatusClient_eq, ?removeStatusClient_eq,
        ?addEventClient_eq, ?removeEventClient_eq;
      cbn [final trace fst snd];
      match goal with
      | |- context [handlersOnly ops ?st1] =>
          destruct (IH st1) as (Hc & Hs & Hns & Hne)
      end;
      (split; [by rewrite Hc|]); (split; [by rewrite Hs|]);
      split; intros ch' x Hin; skip_others Hin;
      first [by apply Hns in Hin | by apply Hne in Hin].
Qed.

(** Once an iteration stays in a send the loop is over: of what
    follows, only the calls of the handlers take effect. *)
Lemma runWith_app_stuck (ops1 ops2 : list (Delivery * Op)) (st : State) :
  result (runWith ops1 st) = false →
  runWith (ops1 ++ ops2) st =
  (false, final (handlersOnly ops2 (final (runWith ops1 st))),
   trace (runWith ops1 st) ++ trace (handlersOnly ops2 (final (runWith ops1 st)))).
Proof.
  revert st. induction ops1 as [|[d o] ops1 IH]; intros st Hstuck; [discriminate|].
  rewrite <- app_comm_cons.
  destruct o as [c|id ch|id|id ch|id];
    try (rewrite !runWith_call in * by discriminate;
         cbn [result final trace fst snd] in *;
         rewrite IH by exact Hstuck; cbn [result final trace fst snd];
         by rewrite app_assoc).
  rewrite !runWith_iteration in *. cbv zeta in *.
  destruct (result (watchloopWith d c st)); cbn [result final trace fst snd] in *.
  - rewrite IH by exact Hstuck. cbn [result final trace fst snd].
    by rewrite app_assoc.
  - rewrite handlersOnly_app. cbn [final trace fst snd]. by rewrite app_assoc.
Qed.


(** X18.  In a run whose registry calls fall between the iterations:
    as long as the loop is running, no update is lost for a subscriber
    that stays registered.  If a channel is registered under an id, the
    operations that follow neither remove that id nor register it again
    and none of the iterations among them stays in a send, then the
    snapshot of a health or stats update received next is published
    and, the subscribers receiving, sent to the channel.  Once an
    iteration stays in a send, nothing that follows is published or
    sent. *)
Theorem registered_subscriber_is_sent_every_update
    (id : string) (ch : Chan) (ops1 ops2 : list (Delivery * Op)) (d : Delivery)
    (c : SelectCase) (new : LabStatus) (st : State) :
  let mid := final (runWith ops1 st) in
  (statusClients st !! id = Some ch →
   forallb (fun x => keeps id x.2) ops1 = true →
   result (runWith ops1 st) = true →
   updated c (status mid) = Some new →
   (∀ ch', ch' ∈ chans (statusClients mid) → receives d ch' = true) →
   SendStatus ch new ∈ trace (runWith (ops1 ++ (d, Iteration c) :: ops2) st)
   ∧ currentStatus (final (runWith (ops1 ++ [(d, Iteration c)]) st)) = new)
  ∧ (result (runWith ops1 st) = false →
     result (runWith (ops1 ++ ops2) st) = false
     ∧ currentStatus (final (runWith (ops1 ++ ops2) st)) = currentStatus mid
     ∧ (∀ ch' s, SendStatus ch' s ∈ trace (runWith (ops1 ++ ops2) st) →
                 SendStatus ch' s ∈ trace (runWith ops1 st))
     ∧ (∀ ch' e, SendEvent ch' e ∈ trace (runWith (ops1 ++ ops2) st) →
                 SendEvent ch' e ∈ trace (runWith ops1 st))).
Proof.
  intros mid. split.
  - intros Hreg Hkeep Halive Hup Hall.
    pose proof (runWith_keeps id ops1 st Hkeep) as Hid. rewrite Hreg in Hid.
    fold mid in Hid.
    rewrite !(runWith_app _ _ _ Halive), !runWith_iteration. cbv zeta. fold mid.
    rewrite (watchloopWith_updated _ _ _ _ Hup), broadcastStatusWith_eq.
    cbn [result final trace fst snd set_status status statusClients].
    destruct (receives_all d _ Hall) as [Hok Hserved]. rewrite Hok, Hserved.
    cbn [result final trace fst snd]. split; [|reflexivity].
    apply elem_of_app. right. apply elem_of_app. left.
    do 3 apply list_elem_of_further. apply list_elem_of_fmap. exists ch.
    split; [reflexivity|]. apply elem_of_rangeOver. by exists id.
  - intros Hstuck. rewrite (runWith_app_stuck _ _ _ Hstuck).
    cbn [result final trace fst snd]. fold mid.
    destruct (handlersOnly_quiet ops2 mid) as (Hc & _ & Hns & Hne).
    split; [reflexivity|]. split; [exact Hc|].
    split; intros ch' x Hin; apply elem_of_app in Hin as [Hin|Hin];
      first [exact Hin | by apply Hns in Hin | by apply Hne in Hin].
Qed.

End Labwatch.

(** * A concrete instance

    Node statuses and log events are strings and the log statistics are a
    line count, as in the scenario of the specification. *)
Module Sample.

Definition St : Type := @State string nat.

(** The state at the start of the loop. *)
Definition st0 : St := initState 0.

(** One status subscriber, registered under the id [a]. *)
Definition st1 : St :=
  final (register (LogEvent := string) StatusClients "a" 1 st0).

(** No producer channel is ready. *)
Definition idle : @Ready string nat string := mkReady None None None.

(** Only the log-stats channel is ready, offering the value 10. *)
Definition busy : @Ready string nat string := mkReady None (Some (Some 10)) None.

(** The scenario of the specification: a status subscriber and an events
    subscriber register, then the watchers emit a node health, log
    statistics and a log event. *)
Definition scenario : list (@Op string nat string) :=
  [AddStatusClient "s" 1;
   AddEventClient "e" 2;
   Iteration (CaseTInfo (Some (Some {["n1" := "Ready"]})));
   Iteration (CaseStats (Some 10));
   Iteration (CaseEvents (Some "boot"))].

(** The channel sends of a trace. *)
Definition sends (t : list (@Event string nat string)) : list (@Event string nat string) :=
  List.filter
    (fun e => match e with SendStatus _ _ | SendEvent _ _ => true | _ => false end) t.

End Sample.

(** The scenario pushes two snapshots to the status subscriber and one
    event to the events subscriber. *)
Example scenario_sends :
  Sample.sends (trace (run Sample.scenario Sample.st0)) =
  [SendStatus 1 (mkLabStatus (Some {["n1" := "Ready"]}) 0);
   SendStatus 1 (mkLabStatus (Some {["n1" := "Ready"]}) 10);
   SendEvent 2 "boot"].
Proof. vm_compute. reflexivity. Qed.

(** * Instances, and the inputs on which a claim fails *)

(** The snapshot theorem on the scenario: each of the two snapshots sent
    is the published one. *)
Lemma snapshot_merges_latest_updates_witness :
  currentStatus (final (run Sample.scenario Sample.st0)) =
  mkLabStatus (Some {["n1" := "Ready"]}) 10
  ∧ SendStatus (LogEvent := string) 1 (mkLabStatus (Some {["n1" := "Ready"]}) 11) ∈
    trace (watchloop (CaseStats (Some 11)) (final (run Sample.scenario Sample.st0))).
Proof.
  split.
  - exact (proj1 (snapshot_merges_latest_updates 0 Sample.scenario [])).
  - vm_compute. apply list_elem_of_further, list_elem_of_further,
      list_elem_of_further, list_elem_of_here.
Defined.

(** C3, as stated, fails: with no channel ready the [select] does not
    block; the default arm runs and the iteration sleeps 100 ms. *)
Lemma select_does_not_block :
  readyCases Sample.idle = []
  ∧ selectCase Sample.idle 0 = CaseDefault
  ∧ watchloop (selectCase Sample.idle 0) Sample.st0 = (tt, Sample.st0, [Sleep 100]).
Proof. repeat split. Qed.

Lemma select_polls_when_nothing_ready_witness :
  (readyCases Sample.idle = []
   ∧ selectCase Sample.idle 0 = CaseDefault
   ∧ watchloop (selectCase Sample.idle 0) Sample.st0 = (tt, Sample.st0, [Sleep 100]))
  ∧ (selectCase Sample.busy 0 ∈ readyCases Sample.busy
     ∧ ∀ ms, Sleep ms ∉ trace (watchloop (selectCase Sample.busy 0) Sample.st0)).
Proof.
  split.
  - split; [reflexivity|].
    apply (proj1 (select_polls_when_nothing_ready Sample.idle 0 Sample.st0)).
    reflexivity.
  - apply (proj2 (select_polls_when_nothing_ready Sample.busy 0 Sample.st0)).
    discriminate.
Defined.

(** C7, as stated, fails: when the id is already registered, registering
    it again and unregistering it leaves one subscriber less. *)
Lemma register_unregister_loses_existing :
  size (clients StatusClients Sample.st1) = 1
  ∧ size (clients StatusClients
            (final ((register (LogEvent := string) StatusClients "a" 2 ;;
                     unregister StatusClients "a") Sample.st1))) = 0.
Proof. split; reflexivity. Qed.

Lemma register_unregister_restores_count_witness :
  clients StatusClients Sample.st1 !! "b" = None
  ∧ size (clients StatusClients
            (final ((register (LogEvent := string) StatusClients "b" 2 ;;
                     unregister StatusClients "b") Sample.st1))) =
    size (clients StatusClients Sample.st1).
Proof.
  split; [reflexivity|].
  apply (register_unregister_restores_count (LogEvent := string)
           StatusClients "b" 2 Sample.st1).
  reflexivity.
Defined.

Lemma register_overwrites_existing_witness :
  clients StatusClients Sample.st1 !! "a" = Some 1
  ∧ clients StatusClients
      (final (register (LogEvent := string) StatusClients "a" 2 Sample.st1)) !! "a" =
    Some 2.
Proof.
  split; [reflexivity|].
  apply (register_overwrites_existing (LogEvent := string)
           StatusClients "a" 1 2 Sample.st1).
  reflexivity.
Defined.

Lemma unregister_is_idempotent_witness :
  clients StatusClients Sample.st1 !! "b" = None
  ∧ final (unregister (LogEvent := string) StatusClients "b" Sample.st1) = Sample.st1.
Proof.
  split; [reflexivity|].
  apply (proj1 (unregister_is_idempotent (LogEvent := string)
                  StatusClients "b" Sample.st1)).
  reflexivity.
Defined.

(** * Further instances *)
Module Inputs.

(** Encoders for the concrete instance: a snapshot is rendered by its
    line count, an event is its own text. *)
Definition showStatus (s : @LabStatus string nat) : Bytes :=
  if Nat.eqb (Logs s) 0 then "idle" else "busy".

Definition showEvent (e : string) : Bytes := e.

(** A /status stream that receives one snapshot and writes it. *)
Definition oneSnapshot : list (HandlerSelect (@LabStatus string nat)) :=
  [@FromChan _ (mkLabStatus None 10) true].

(** An environment in which every step of startup succeeds, without a
    configuration file. *)
Definition allGood : Env :=
  mkEnv "" "" (fun _ => None) (fun _ cfg => Some cfg)
    (fun _ _ => true) (fun _ _ => true).

(** The log watcher cannot be constructed. *)
Definition lokiDown : Env :=
  mkEnv "verbose" "" (fun _ => None) (fun _ cfg => Some cfg)
    (fun _ _ => true) (fun _ _ => false).

End Inputs.

Lemma register_fresh_adds_one_witness :
  clients StatusClients Sample.st1 !! "b" = None
  ∧ size (clients StatusClients
            (final (register (LogEvent := string) StatusClients "b" 2 Sample.st1))) = 2.
Proof.
  split; [reflexivity|].
  pose proof (register_fresh_adds_one (LogEvent := string)
                StatusClients "b" 2 Sample.st1 eq_refl) as H.
  cbv zeta in H. exact (proj1 (proj2 (proj2 H))).
Defined.

Lemma unregister_removes_only_that_id_witness :
  "a" ≠ "b"
  ∧ clients StatusClients
      (final (unregister (LogEvent := string) StatusClients "b" Sample.st1)) !! "a" =
    Some 1.
Proof.
  split; [discriminate|].
  pose proof (unregister_removes_only_that_id (LogEvent := string)
                StatusClients "b" Sample.st1) as H.
  cbv zeta in H. apply (proj1 (proj2 H)). discriminate.
Defined.

Lemma registry_calls_commute_witness :
  (StatusClients ≠ StatusClients ∨ "a" ≠ "b")
  ∧ final ((register (LogEvent := string) StatusClients "a" 1 ;;
            register StatusClients "b" 2) Sample.st0) =
    final ((register (LogEvent := string) StatusClients "b" 2 ;;
            register StatusClients "a" 1) Sample.st0).
Proof.
  assert (Hne : StatusClients ≠ StatusClients ∨ "a" ≠ "b") by (right; discriminate).
  split; [exact Hne|].
  exact (proj1 (registry_calls_commute (LogEvent := string)
                  StatusClients StatusClients "a" "b" 1 2 Sample.st0 Hne)).
Defined.

Lemma closed_channel_makes_loop_spin_witness :
  closedIn (NodeStatus := string) (LogStats := nat) (LogEvent := string)
    Stats (mkReady None (Some None) (Some (Some "boot"))) = true
  ∧ selectCase (mkReady None (Some None) (Some (Some "boot"))) 1 ∈
    readyCases (NodeStatus := string) (LogStats := nat) (LogEvent := string)
      (mkReady None (Some None) (Some (Some "boot"))).
Proof.
  split; [reflexivity|].
  exact (proj1 (proj2 (closed_channel_makes_loop_spin (LogEvent := string)
                         Stats [] (mkReady None (Some None) (Some (Some "boot")))
                         1 Sample.st0) eq_refl)).
Defined.

Lemma select_is_fair_and_exact_witness :
  selectCase Sample.busy 3 = CaseStats (Some 10)
  ∧ statsReady Sample.busy = Some (Some 10).
Proof.
  split; [reflexivity|].
  exact (proj1 (proj2 (proj2 (select_is_fair_and_exact Sample.busy))) 3 (Some 10) eq_refl).
Defined.

Lemma handler_unregisters_on_return_witness :
  statusClients Sample.st0 !! "u" = None
  ∧ result (statusHandler (LogEvent := string) Inputs.showStatus
              "websocket" true 7 "u" true [@CtxDone _] Sample.st0) = true
  ∧ final (statusHandler (LogEvent := string) Inputs.showStatus
             "websocket" true 7 "u" true [@CtxDone _] Sample.st0) = Sample.st0.
Proof.
  split; [reflexivity|]. split; [reflexivity|].
  pose proof (handler_unregisters_on_return (LogEvent := string)
                Inputs.showStatus Inputs.showEvent
                (Ascii.ascii_of_nat 119) "ebsocket" 7 "u" true [@CtxDone _] [] Sample.st0) as H.
  cbv zeta in H. apply (proj1 (proj2 (proj2 (proj2 (proj2 H))))); reflexivity.
Defined.

Lemma subscriber_messages_follow_channel_order_witness :
  streamReturns Inputs.oneSnapshot = false
  ∧ connWrites (trace (statusHandler (LogEvent := string) Inputs.showStatus
                         "websocket" true 7 "u" true Inputs.oneSnapshot Sample.st0)) =
    ["idle"; "busy"].
Proof.
  split; [reflexivity|].
  pose proof (subscriber_messages_follow_channel_order (LogEvent := string)
                Inputs.showStatus Inputs.showEvent
                (Ascii.ascii_of_nat 119) "ebsocket" 7 "u" true Inputs.oneSnapshot [] Sample.st0) as H.
  cbv zeta in H. apply (proj1 (proj2 H)); reflexivity.
Defined.

Lemma log_level_flag_filters_witness :
  "verbose" ≠ "error" ∧ "verbose" ≠ "warn" ∧ "verbose" ≠ "debug"
  ∧ levelOf "verbose" = LevelInfo.
Proof.
  assert (H1 : "verbose" ≠ "error") by discriminate.
  assert (H2 : "verbose" ≠ "warn") by discriminate.
  assert (H3 : "verbose" ≠ "debug") by discriminate.
  split; [exact H1|split; [exact H2|split; [exact H3|]]].
  exact (proj2 (proj2 (log_level_flag_filters "verbose")) H1 H2 H3).
Defined.

Lemma startup_failure_is_fatal_witness :
  startupOk Inputs.lokiDown = false
  ∧ (∃ pre msg, main Inputs.lokiDown = pre ++ [BootLog LevelError msg; Exit 1]
                ∧ last (logged Inputs.lokiDown) = Some (LevelError, msg)).
Proof.
  split; [reflexivity|].
  exact (proj1 (proj2 (proj2 (proj2 (proj2 (startup_failure_is_fatal Inputs.lokiDown))))
                  eq_refl)).
Defined.

Lemma watchers_get_the_loaded_configuration_witness :
  config Inputs.allGood = ""
  ∧ configOf Inputs.allGood = Some defaultConfig.
Proof.
  split; [reflexivity|].
  exact (proj1 (proj1 (watchers_get_the_loaded_configuration Inputs.allGood) eq_refl)).
Defined.

Lemma watchers_run_before_anything_is_served_witness :
  configOf Inputs.lokiDown = Some defaultConfig
  ∧ GoTalosWatch ∈ main Inputs.lokiDown
  ∧ Exit 1 ∈ main Inputs.lokiDown.
Proof.
  split; [reflexivity|].
  pose proof (proj2 (proj2 (proj2 (watchers_run_before_anything_is_served Inputs.lokiDown)))
                defaultConfig eq_refl eq_refl eq_refl) as H.
  exact (conj (proj1 H) (proj1 (proj2 H))).
Defined.

(** The startup of [Inputs.allGood], in full. *)
Example startup_of_allGood :
  main Inputs.allGood =
  [BootLog LevelInfo "starting up labwatch";
   NewTalosWatcher "/home/boss/talos/talosconfig" "koobs"; GoTalosWatch;
   NewLokiWatcher "boss.local:3100" (LokiQuery defaultConfig); GoLokiWatch;
   GoWatchloop;
   BootLog LevelInfo "watchers initialized";
   HandleFunc "/status"; HandleFunc "/events"; HandleFunc "/";
   ListenAndServe ":8080";
   BootLog LevelInfo "shutting down"]
  ∧ String.length (LokiQuery defaultConfig) = 28.
Proof. split; reflexivity. Qed.

Lemma handlers_leave_the_rest_alone_witness :
  "a" ≠ "u"
  ∧ statusClients
      (final (statusHandler (LogEvent := string) Inputs.showStatus
                "websocket" true 7 "u" true [@CtxDone _] Sample.st1)) !! "a" =
    Some 1.
Proof.
  assert (Hne : "a" ≠ "u") by discriminate.
  split; [exact Hne|].
  pose proof (handlers_leave_the_rest_alone (LogEvent := string)
                Inputs.showStatus Inputs.showEvent
                "websocket" true 7 "u" true [@CtxDone _] [] Sample.st1) as H.
  cbv zeta in H.
  exact (proj2 (proj2 (proj2 (proj1 H))) "a" Hne).
Defined.

Lemma concurrent_handlers_never_race_witness :
  ∃ x,
    execute [Watchloop; Watchloop; Watchloop; Handler; Watchloop; Handler; Handler] None
      (trace (statusHandler (LogEvent := string) Inputs.showStatus
                "websocket" true 7 "u" true [] Sample.st0))
      (trace (eventHandler (NodeStatus := string) (LogStats := nat) Inputs.showEvent
                true 8 "v" [] Sample.st0)) = Some x
    ∧ racy x = false.
Proof.
  exists [(Watchloop, MutexLock); (Watchloop, MapStore StatusClients "u");
          (Watchloop, MutexUnlock); (Handler, MutexLock);
          (Watchloop, ConnWrite "idle" true);
          (Handler, MapStore EventClients "v"); (Handler, MutexUnlock)].
  split; [reflexivity|].
  pose proof (concurrent_handlers_never_race (LogEvent := string)
                Inputs.showStatus Inputs.showEvent
                "websocket" "websocket" true true true true 7 7 8 8
                "u" "u" "v" "v" true true [] [] [] []
                Sample.st0 Sample.st0 Sample.st0 Sample.st0) as H.
  cbv zeta in H.
  exact (proj1 (proj2 (proj2 (proj2 H)))
           [Watchloop; Watchloop; Watchloop; Handler; Watchloop; Handler; Handler]
           _ eq_refl).
Defined.

(** * Instances with sends that wait *)
Module Deliveries.

(** Two events subscribers, [e] on channel 2 and [f] on channel 3. *)
Definition two : Sample.St :=
  final (LogEvent := string)
    ((register EventClients "e" 2 ;; register EventClients "f" 3) Sample.st0).


(** Every subscriber receives; the [range] starts with the second entry
    of [chans]. *)
Definition secondFirst : Delivery := mkDelivery [1] (fun _ => true).

End Deliveries.


(** The order of a [range] is not fixed by the registry. *)
Example range_order_is_picked :
  trace (watchloopWith (LogEvent := string) Deliveries.secondFirst
           (CaseEvents (Some "boot")) Deliveries.two) =
  [MapLen EventClients; LogDebug "broadcasting event" 2; MapRange EventClients;
   SendEvent 3 "boot"; SendEvent 2 "boot"]
  ∧ trace (watchloopWith (LogEvent := string) prompt
             (CaseEvents (Some "boot")) Deliveries.two) =
    [MapLen EventClients; LogDebug "broadcasting event" 2; MapRange EventClients;
     SendEvent 2 "boot"; SendEvent 3 "boot"].
Proof. split; reflexivity. Qed.




Lemma repeated_input_is_rebroadcast_witness :
  updated (LogEvent := string) (CaseStats (Some 10)) (status Sample.st1) =
  Some (mkLabStatus None 10)
  ∧ trace (watchloopWith (LogEvent := string) prompt (CaseStats (Some 10))
             (final (watchloopWith (LogEvent := string) prompt
                       (CaseStats (Some 10)) Sample.st1))) =
    [MapLen StatusClients; LogDebug "broadcasting status" 1; MapRange StatusClients;
     SendStatus 1 (mkLabStatus None 10)].
Proof.
  split; [reflexivity|].
  pose proof (repeated_input_is_rebroadcast (LogEvent := string)
                prompt prompt (CaseStats (Some 10)) (mkLabStatus None 10) Sample.st1
                eq_refl) as H.
  cbv zeta in H.
  exact (proj1 (proj2 (proj2 (proj2 H)))).
Defined.

Lemma registered_subscriber_is_sent_every_update_witness :
  statusClients Sample.st1 !! "a" = Some 1
  ∧ result (runWith (NodeStatus := string) (LogStats := nat) (LogEvent := string)
              [(prompt, AddStatusClient "b" 2);
               (prompt, Iteration (CaseEvents (Some "boot")))] Sample.st1) = true
  ∧ SendStatus (LogEvent := string) 1 (mkLabStatus None 10) ∈
    trace (runWith ([(prompt, AddStatusClient "b" 2);
                     (prompt, Iteration (CaseEvents (Some "boot")))] ++
                    (prompt, Iteration (CaseStats (Some 10))) :: []) Sample.st1).
Proof.
  split; [reflexivity|]. split; [reflexivity|].
  pose proof (registered_subscriber_is_sent_every_update (LogEvent := string)
                "a" 1 [(prompt, AddStatusClient "b" 2);
                       (prompt, Iteration (CaseEvents (Some "boot")))] []
                prompt (CaseStats (Some 10)) (mkLabStatus None 10) Sample.st1) as H.
  cbv zeta in H.
  exact (proj1 (proj1 H eq_refl eq_refl eq_refl eq_refl (fun _ _ => eq_refl))).
Defined.
